(** * zipCheck: the PKWare local-file-header checker of [zipCheck.cpp]

    A shallow embedding of [zipCheck.cpp].  Unsigned machine integers are
    values of [Z] with their wrap-around written out, the bytes of a file
    are [Byte.byte], the global CRC table is a list updated in place, and
    the input stream is a record holding the file's bytes, the read
    position and the stream's failure flag. *)

From Stdlib Require Import ZArith Strings.Byte String Ascii DecimalString.
From stdpp Require Import base list.

Local Open Scope string_scope.
Local Open Scope Z_scope.

(** ** Error codes *)

Inductive ErrorCode : Set :=
  | OK
  | ERR_ARGUMENTS
  | ERR_FILE_OPEN
  | ERR_MAGIC_NUMBER
  | ERR_HEADER_SIGNATURE
  | ERR_HEADER_READ
  | ERR_HEADER_SIGNATURE_READ
  | ERR_HEADER_VERSION_NEEDED_READ
  | ERR_HEADER_FLAGS_READ
  | ERR_HEADER_COMPRESSION_METHOD_READ
  | ERR_HEADER_LAST_MOD_TIME_READ
  | ERR_HEADER_MOD_DATE_READ
  | ERR_HEADER_CRC32_READ
  | ERR_HEADER_COMPRESSED_SIZE_READ
  | ERR_HEADER_UNCOMPRESSED_SIZE_READ
  | ERR_HEADER_FILENAME_LENGTH_READ
  | ERR_HEADER_EXTRA_FIELD_LENGTH_READ
  | ERR_READ_FAIL.

#[global] Instance ErrorCode_eq_dec : EqDecision ErrorCode.
Proof. solve_decision. Defined.

(** The enumerator list of [enum ErrorCode], in declaration order, each
    with its initialiser when the declaration gives one.  Only [OK] has
    one ([OK = 0]). *)
Definition ErrorCode_enumerators : list (ErrorCode * option Z) :=
  [ (OK, Some 0);
    (ERR_ARGUMENTS, None);
    (ERR_FILE_OPEN, None);
    (ERR_MAGIC_NUMBER, None);
    (ERR_HEADER_SIGNATURE, None);
    (ERR_HEADER_READ, None);
    (ERR_HEADER_SIGNATURE_READ, None);
    (ERR_HEADER_VERSION_NEEDED_READ, None);
    (ERR_HEADER_FLAGS_READ, None);
    (ERR_HEADER_COMPRESSION_METHOD_READ, None);
    (ERR_HEADER_LAST_MOD_TIME_READ, None);
    (ERR_HEADER_MOD_DATE_READ, None);
    (ERR_HEADER_CRC32_READ, None);
    (ERR_HEADER_COMPRESSED_SIZE_READ, None);
    (ERR_HEADER_UNCOMPRESSED_SIZE_READ, None);
    (ERR_HEADER_FILENAME_LENGTH_READ, None);
    (ERR_HEADER_EXTRA_FIELD_LENGTH_READ, None);
    (ERR_READ_FAIL, None) ].

(** The C++ rule for enumerator values: an enumerator with an initialiser
    has that value, one without has the previous enumerator's value plus
    one ([next] is that value; it starts at 0). *)
Fixpoint enumerator_values {A} (next : Z) (l : list (A * option Z))
  : list (A * Z) :=
  match l with
  | [] => []
  | (e, init) :: l' =>
      let v := default next init in
      (e, v) :: enumerator_values (v + 1) l'
  end.

Fixpoint enumerator_lookup (e : ErrorCode) (l : list (ErrorCode * Z))
  : option Z :=
  match l with
  | [] => None
  | (e', v) :: l' => if decide (e = e') then Some v else enumerator_lookup e l'
  end.

(** The integer an [ErrorCode] converts to (in [return result;] and in
    [std::cout << result]). *)
Definition ErrorCode_value (e : ErrorCode) : Z :=
  default 0 (enumerator_lookup e (enumerator_values 0 ErrorCode_enumerators)).

(** ** Machine integers *)

Definition uint8 (z : Z) : Z := z mod 2 ^ 8.
Definition uint32 (z : Z) : Z := z mod 2 ^ 32.

#[global] Instance byte_eq_dec : EqDecision byte := Byte.byte_eq_dec.

(** The value of a byte of the file, as an [unsigned char]. *)
Definition byte_val (b : byte) : Z := Z.of_N (Byte.to_N b).

(** ** CRC-32 engine *)

(** [static uint32_t crc32Table[256]]: zero-initialised static storage. *)
Definition crc32Table_init : list Z := replicate 256 0.

(** One pass of the inner loop body of [generateCrc32Table]. *)
Definition crc_shift (polynomial crc : Z) : Z :=
  if negb (Z.land crc 1 =? 0)
  then Z.lxor (Z.shiftr crc 1) polynomial
  else Z.shiftr crc 1.

(** [for (uint32_t j = 8; j > 0; j--) { ... }] *)
Fixpoint crc_inner (j : nat) (polynomial crc : Z) : Z :=
  match j with
  | O => crc
  | S j' => crc_inner j' polynomial (crc_shift polynomial crc)
  end.

(** The value stored at [crc32Table[i]]. *)
Definition crc_entry (i : nat) : Z :=
  let polynomial := 0xedb88320 in
  crc_inner 8 polynomial (Z.of_nat i).

(** [generateCrc32Table]: the outer loop over [i = 0 .. 255], writing
    [crc32Table[i] = crc] into the global table it is given. *)
Definition generateCrc32Table (crc32Table : list Z) : list Z :=
  foldl (fun table i => <[ i := crc_entry i ]> table) crc32Table (seq 0 256).

(** The body of the loop of [computeCrc32], for one byte of [data]. *)
Definition crc_update (crc32Table : list Z) (crcValue : Z) (d : byte) : Z :=
  let tableIndex := uint8 (Z.lxor (Z.land crcValue 0xff) (byte_val d)) in
  Z.lxor (default 0 (crc32Table !! Z.to_nat tableIndex)) (Z.shiftr crcValue 8).

(** [computeCrc32(data, length)], reading the global table. *)
Definition computeCrc32 (crc32Table : list Z) (data : list byte) : Z :=
  let crcValue := foldl (crc_update crc32Table) 0xffffffff data in
  uint32 (Z.lnot crcValue).

(** ** Compression method labels *)

(** [compressionMethodToString(method)], [method] a [uint16_t]. *)
Definition compressionMethodToString (method : Z) : string :=
  match method with
  | 0 => "no compression"
  | 1 => "shrunk"
  | 2 => "reduced with compression factor 1"
  | 3 => "reduced with compression factor 2"
  | 4 => "reduced with compression factor 3"
  | 5 => "reduced with compression factor 4"
  | 6 => "imploded"
  | 7 => "reserved"
  | 8 => "deflated"
  | 9 => "enhanced deflated"
  | 10 => "PKWare DCL imploded"
  | 11 => "reserved"
  | 12 => "compressed using BZIP2"
  | 13 => "reserved"
  | 14 => "LZMA"
  | 15 | 16 | 17 => "reserved"
  | 18 => "compressed using IBM TERSE"
  | 19 => "IBM LZ77 z"
  | 98 => "PPMd version I, Rev 1"
  | _ => "unknown"
  end.

(** [errorCodeToString]: the [default] branch of the switch
    ([UNKNOWN_ERROR]) is for integers that are no enumerator; [ErrorCode]
    has none. *)
Definition errorCodeToString (code : ErrorCode) : string :=
  match code with
  | OK => "OK"
  | ERR_ARGUMENTS => "ERR_ARGUMENTS"
  | ERR_FILE_OPEN => "ERR_FILE_OPEN"
  | ERR_MAGIC_NUMBER => "ERR_MAGIC_NUMBER"
  | ERR_HEADER_SIGNATURE => "ERR_HEADER_SIGNATURE"
  | ERR_HEADER_READ => "ERR_HEADER_READ"
  | ERR_HEADER_SIGNATURE_READ => "ERR_HEADER_SIGNATURE_READ"
  | ERR_HEADER_VERSION_NEEDED_READ => "ERR_HEADER_VERSION_NEEDED_READ"
  | ERR_HEADER_FLAGS_READ => "ERR_HEADER_FLAGS_READ"
  | ERR_HEADER_COMPRESSION_METHOD_READ => "ERR_HEADER_COMPRESSION_METHOD_READ"
  | ERR_HEADER_LAST_MOD_TIME_READ => "ERR_HEADER_LAST_MOD_TIME_READ"
  | ERR_HEADER_MOD_DATE_READ => "ERR_HEADER_MOD_DATE_READ"
  | ERR_HEADER_CRC32_READ => "ERR_HEADER_CRC32_READ"
  | ERR_HEADER_COMPRESSED_SIZE_READ => "ERR_HEADER_COMPRESSED_SIZE_READ"
  | ERR_HEADER_UNCOMPRESSED_SIZE_READ => "ERR_HEADER_UNCOMPRESSED_SIZE_READ"
  | ERR_HEADER_FILENAME_LENGTH_READ => "ERR_HEADER_FILENAME_LENGTH_READ"
  | ERR_HEADER_EXTRA_FIELD_LENGTH_READ => "ERR_HEADER_EXTRA_FIELD_LENGTH_READ"
  | ERR_READ_FAIL => "ERR_READ_FAIL"
  end.

(** ** The local file header *)

Record ZipLocalFileHeader : Set := {
  signature : Z;
  versionNeeded : Z;
  flags : Z;
  compressionMethod : Z;
  lastModTime : Z;
  lastModDate : Z;
  crc32 : Z;
  compressedSize : Z;
  uncompressedSize : Z;
  fileNameLength : Z;
  extraFieldLength : Z
}.


(** Assignments to one field of a header held by reference. *)

Definition set_signature (v : Z) (h : ZipLocalFileHeader) : ZipLocalFileHeader :=
  {| signature := v;
     versionNeeded := versionNeeded h;
     flags := flags h;
     compressionMethod := compressionMethod h;
     lastModTime := lastModTime h;
     lastModDate := lastModDate h;
     crc32 := crc32 h;
     compressedSize := compressedSize h;
     uncompressedSize := uncompressedSize h;
     fileNameLength := fileNameLength h;
     extraFieldLength := extraFieldLength h |}.

Definition set_versionNeeded (v : Z) (h : ZipLocalFileHeader) : ZipLocalFileHeader :=
  {| signature := signature h;
     versionNeeded := v;
     flags := flags h;
     compressionMethod := compressionMethod h;
     lastModTime := lastModTime h;
     lastModDate := lastModDate h;
     crc32 := crc32 h;
     compressedSize := compressedSize h;
     uncompressedSize := uncompressedSize h;
     fileNameLength := fileNameLength h;
     extraFieldLength := extraFieldLength h |}.

Definition set_flags (v : Z) (h : ZipLocalFileHeader) : ZipLocalFileHeader :=
  {| signature := signature h;
     versionNeeded := versionNeeded h;
     flags := v;
     compressionMethod := compressionMethod h;
     lastModTime := lastModTime h;
     lastModDate := lastModDate h;
     crc32 := crc32 h;
     compressedSize := compressedSize h;
     uncompressedSize := uncompressedSize h;
     fileNameLength := fileNameLength h;
     extraFieldLength := extraFieldLength h |}.

Definition set_compressionMethod (v : Z) (h : ZipLocalFileHeader) : ZipLocalFileHeader :=
  {| signature := signature h;
     versionNeeded := versionNeeded h;
     flags := flags h;
     compressionMethod := v;
     lastModTime := lastModTime h;
     lastModDate := lastModDate h;
     crc32 := crc32 h;
     compressedSize := compressedSize h;
     uncompressedSize := uncompressedSize h;
     fileNameLength := fileNameLength h;
     extraFieldLength := extraFieldLength h |}.

Definition set_lastModTime (v : Z) (h : ZipLocalFileHeader) : ZipLocalFileHeader :=
  {| signature := signature h;
     versionNeeded := versionNeeded h;
     flags := flags h;
     compressionMethod := compressionMethod h;
     lastModTime := v;
     lastModDate := lastModDate h;
     crc32 := crc32 h;
     compressedSize := compressedSize h;
     uncompressedSize := uncompressedSize h;
     fileNameLength := fileNameLength h;
     extraFieldLength := extraFieldLength h |}.

Definition set_lastModDate (v : Z) (h : ZipLocalFileHeader) : ZipLocalFileHeader :=
  {| signature := signature h;
     versionNeeded := versionNeeded h;
     flags := flags h;
     compressionMethod := compressionMethod h;
     lastModTime := lastModTime h;
     lastModDate := v;
     crc32 := crc32 h;
     compressedSize := compressedSize h;
     uncompressedSize := uncompressedSize h;
     fileNameLength := fileNameLength h;
     extraFieldLength := extraFieldLength h |}.

Definition set_crc32 (v : Z) (h : ZipLocalFileHeader) : ZipLocalFileHeader :=
  {| signature := signature h;
     versionNeeded := versionNeeded h;
     flags := flags h;
     compressionMethod := compressionMethod h;
     lastModTime := lastModTime h;
     lastModDate := lastModDate h;
     crc32 := v;
     compressedSize := compressedSize h;
     uncompressedSize := uncompressedSize h;
     fileNameLength := fileNameLength h;
     extraFieldLength := extraFieldLength h |}.

Definition set_compressedSize (v : Z) (h : ZipLocalFileHeader) : ZipLocalFileHeader :=
  {| signature := signature h;
     versionNeeded := versionNeeded h;
     flags := flags h;
     compressionMethod := compressionMethod h;
     lastModTime := lastModTime h;
     lastModDate := lastModDate h;
     crc32 := crc32 h;
     compressedSize := v;
     uncompressedSize := uncompressedSize h;
     fileNameLength := fileNameLength h;
     extraFieldLength := extraFieldLength h |}.

Definition set_uncompressedSize (v : Z) (h : ZipLocalFileHeader) : ZipLocalFileHeader :=
  {| signature := signature h;
     versionNeeded := versionNeeded h;
     flags := flags h;
     compressionMethod := compressionMethod h;
     lastModTime := lastModTime h;
     lastModDate := lastModDate h;
     crc32 := crc32 h;
     compressedSize := compressedSize h;
     uncompressedSize := v;
     fileNameLength := fileNameLength h;
     extraFieldLength := extraFieldLength h |}.

Definition set_fileNameLength (v : Z) (h : ZipLocalFileHeader) : ZipLocalFileHeader :=
  {| signature := signature h;
     versionNeeded := versionNeeded h;
     flags := flags h;
     compressionMethod := compressionMethod h;
     lastModTime := lastModTime h;
     lastModDate := lastModDate h;
     crc32 := crc32 h;
     compressedSize := compressedSize h;
     uncompressedSize := uncompressedSize h;
     fileNameLength := v;
     extraFieldLength := extraFieldLength h |}.

Definition set_extraFieldLength (v : Z) (h : ZipLocalFileHeader) : ZipLocalFileHeader :=
  {| signature := signature h;
     versionNeeded := versionNeeded h;
     flags := flags h;
     compressionMethod := compressionMethod h;
     lastModTime := lastModTime h;
     lastModDate := lastModDate h;
     crc32 := crc32 h;
     compressedSize := compressedSize h;
     uncompressedSize := uncompressedSize h;
     fileNameLength := fileNameLength h;
     extraFieldLength := v |}.

(** [ZipLocalFileHeader header;] is declared without an initialiser.
    [readLocalFileHeader] writes every field before the program reads it,
    so zeros stand here for the indeterminate initial contents. *)
Definition header_uninitialised : ZipLocalFileHeader :=
  {| signature := 0; versionNeeded := 0; flags := 0; compressionMethod := 0;
     lastModTime := 0; lastModDate := 0; crc32 := 0; compressedSize := 0;
     uncompressedSize := 0; fileNameLength := 0; extraFieldLength := 0 |}.

(** [const auto PK_SIGNATURE = 0x04034b50;] *)
Definition PK_SIGNATURE : Z := 0x04034b50.

(** ** The input stream *)

(** A [std::ifstream] opened in binary mode on a file that does not
    change while it is read: the bytes of the file, whether the open
    succeeded, the read position, and [failbit]. *)
Record ifstream : Set := {
  content : list byte;
  is_open : bool;
  gpos : nat;
  failbit : bool
}.

(** The files of the machine: the bytes behind a path that can be opened
    for reading, [None] for a path that cannot. *)
Definition filesystem : Type := string -> option (list byte).

(** [std::ifstream file(filePath, std::ios::binary)] *)
Definition ifstream_open (fs : filesystem) (filePath : string) : ifstream :=
  match fs filePath with
  | Some bytes =>
      {| content := bytes; is_open := true; gpos := 0; failbit := false |}
  | None =>
      {| content := []; is_open := false; gpos := 0; failbit := true |}
  end.

(** [file.read(dst, n)]: on a stream in good state with [n] bytes left it
    yields them and advances; otherwise nothing usable is stored, the
    position goes to the end of what could be read and [failbit] is set.
    [!file.read(..)] is the [None] case. *)
Definition read (n : nat) (file : ifstream) : option (list byte) * ifstream :=
  if failbit file then (None, file)
  else if (gpos file + n <=? length (content file))%nat
  then (Some (take n (drop (gpos file) (content file))),
        {| content := content file; is_open := is_open file;
           gpos := (gpos file + n)%nat; failbit := false |})
  else (None,
        {| content := content file; is_open := is_open file;
           gpos := max (gpos file) (length (content file)); failbit := true |}).

Inductive seekdir : Set := beg | cur.

Section Seek.

(** Whether the file buffer lets the read position be moved beyond the
    last byte of the file.  The program takes this from the C++ library
    and the operating system under it; the embedding leaves it open, and
    every result below holds for both answers. *)
Variable seek_past_end : bool.

(** [file.seekg(off, dir)]: nothing happens on a stream that has failed;
    otherwise the position becomes [off] bytes from the start ([beg]) or
    from the current position ([cur]), and [failbit] is set instead when
    the target is negative or is refused for lying past the end. *)
Definition seekg (off : Z) (dir : seekdir) (file : ifstream) : ifstream :=
  if failbit file then file
  else
    let base := match dir with beg => 0%nat | cur => gpos file end in
    let target := Z.of_nat base + off in
    if (target <? 0)
       || (negb seek_past_end && (Z.of_nat (length (content file)) <? target))
    then {| content := content file; is_open := is_open file;
            gpos := gpos file; failbit := true |}
    else {| content := content file; is_open := is_open file;
            gpos := Z.to_nat target; failbit := false |}.

(** ** Reading the header *)

(** The value an unsigned integer variable holds after [read] has copied
    the bytes of the file over it, on a little-endian host: the first
    byte is the least significant. *)
Fixpoint little_endian (bytes : list byte) : Z :=
  match bytes with
  | [] => 0
  | b :: bytes' => Z.lor (byte_val b) (Z.shiftl (little_endian bytes') 8)
  end.

(** What [readLocalFileHeader] works on: the stream and the header it
    receives by reference, and the lines written to [std::cout]. *)
Record Reader : Set := {
  rd_file : ifstream;
  rd_header : ZipLocalFileHeader;
  rd_cout : list string
}.

(** A statement of the function body: it either falls through to the next
    statement ([None]) or returns an error code. *)
Definition Stmt : Set := Reader -> option ErrorCode * Reader.

Definition then_ (s1 s2 : Stmt) : Stmt :=
  fun r =>
    match s1 r with
    | (Some e, r') => (Some e, r')
    | (None, r') => s2 r'
    end.

Declare Scope stmt_scope.
Delimit Scope stmt_scope with stmt.
Bind Scope stmt_scope with Stmt.
Notation "s1 ;; s2" := (then_ s1 s2)
  (at level 100, s2 at level 200, right associativity) : stmt_scope.

(** [if (!file.read(reinterpret_cast<char*>(&header.f), n)) return err;] *)
Definition read_field (n : nat)
    (store : Z -> ZipLocalFileHeader -> ZipLocalFileHeader)
    (err : ErrorCode) : Stmt :=
  fun r =>
    match read n (rd_file r) with
    | (Some bytes, file') =>
        (None, {| rd_file := file';
                  rd_header := store (little_endian bytes) (rd_header r);
                  rd_cout := rd_cout r |})
    | (None, file') =>
        (Some err, {| rd_file := file'; rd_header := rd_header r;
                      rd_cout := rd_cout r |})
    end.

(** [std::cout << compressionMethodToString(header.compressionMethod) << std::endl;] *)
Definition print_compressionMethod : Stmt :=
  fun r =>
    (None, {| rd_file := rd_file r; rd_header := rd_header r;
              rd_cout :=
                (rd_cout r
                 ++ [compressionMethodToString
                       (compressionMethod (rd_header r))])%list |}).

(** [if (header.signature != PK_SIGNATURE) return ERR_HEADER_SIGNATURE;] *)
Definition check_signature : Stmt :=
  fun r =>
    if negb (signature (rd_header r) =? PK_SIGNATURE)
    then (Some ERR_HEADER_SIGNATURE, r)
    else (None, r).

Definition return_ (e : ErrorCode) : Stmt := fun r => (Some e, r).

Definition readLocalFileHeader_body : Stmt :=
  (read_field 4 set_signature ERR_HEADER_SIGNATURE_READ ;;
   read_field 2 set_versionNeeded ERR_HEADER_VERSION_NEEDED_READ ;;
   read_field 2 set_flags ERR_HEADER_FLAGS_READ ;;
   read_field 2 set_compressionMethod ERR_HEADER_COMPRESSION_METHOD_READ ;;
   print_compressionMethod ;;
   read_field 2 set_lastModTime ERR_HEADER_LAST_MOD_TIME_READ ;;
   read_field 2 set_lastModDate ERR_HEADER_MOD_DATE_READ ;;
   read_field 4 set_crc32 ERR_HEADER_CRC32_READ ;;
   read_field 4 set_compressedSize ERR_HEADER_COMPRESSED_SIZE_READ ;;
   read_field 4 set_uncompressedSize ERR_HEADER_UNCOMPRESSED_SIZE_READ ;;
   read_field 2 set_fileNameLength ERR_HEADER_FILENAME_LENGTH_READ ;;
   read_field 2 set_extraFieldLength ERR_HEADER_EXTRA_FIELD_LENGTH_READ ;;
   check_signature ;;
   return_ OK)%stmt.

(** [readLocalFileHeader(file, header)].  The body ends in [return OK], so
    the fall-through case does not arise; it is given the value a
    function falling off its end is not allowed to have. *)
Definition readLocalFileHeader (r : Reader) : ErrorCode * Reader :=
  match readLocalFileHeader_body r with
  | (Some e, r') => (e, r')
  | (None, r') => (ERR_HEADER_READ, r')
  end.

(** ** The validator *)

(** [buffer[i]] of the four-byte vector. *)
Definition at_ (buffer : list byte) (i : nat) : Z :=
  byte_val (default x00 (buffer !! i)).

(** [isValidZipFile(filePath)]: the returned pair, and [std::cout] after
    the call. *)
Definition isValidZipFile (fs : filesystem) (filePath : string)
    (cout : list string) : (ErrorCode * string) * list string :=
  let file := ifstream_open fs filePath in
  if negb (is_open file) then ((ERR_FILE_OPEN, "could not open file"), cout)
  else
    match read 4 file with
    | (None, _) => ((ERR_READ_FAIL, "failed to read from file"), cout)
    | (Some buffer, file) =>
        if negb ((at_ buffer 0 =? 0x50) && (at_ buffer 1 =? 0x4B)
                 && (at_ buffer 2 =? 0x03) && (at_ buffer 3 =? 0x04))
        then ((ERR_MAGIC_NUMBER, "incorrect magic number"), cout)
        else
          let file := seekg 0 beg file in
          let '(errorCode, r) :=
            readLocalFileHeader
              {| rd_file := file; rd_header := header_uninitialised;
                 rd_cout := cout |} in
          let header := rd_header r in
          if decide (errorCode <> OK)
          then ((errorCode, errorCodeToString errorCode), rd_cout r)
          else
            (* uint16_t + uint16_t is an int; adding a uint32_t to it is
               done in unsigned int *)
            let advance :=
              uint32 (fileNameLength header + extraFieldLength header
                      + compressedSize header) in
            let file := seekg advance cur (rd_file r) in
            if failbit file
            then ((ERR_READ_FAIL, "failed to seek in file"), rd_cout r)
            else ((OK, "the file is a valid ZIP file"), rd_cout r)
    end.

(** ** The program *)

(** The process around [main]: the global CRC table and the two output
    streams, as lists of lines. *)
Record Process : Set := {
  crc32Table : list Z;
  std_cout : list string;
  std_cerr : list string
}.

Definition Process_start : Process :=
  {| crc32Table := crc32Table_init; std_cout := []; std_cerr := [] |}.

(** How [operator<<] writes an [int]. *)
Definition decimal (z : Z) : string := NilZero.string_of_int (Z.to_int z).

(** [main(argc, argv)] with [argc = length argv]: the exit status and the
    process when it ends. *)
Definition main (fs : filesystem) (argv : list string) (p : Process)
  : Z * Process :=
  let argc := Z.of_nat (length argv) in
  if argc <? 2
  then (ErrorCode_value ERR_ARGUMENTS,
        {| crc32Table := crc32Table p; std_cout := std_cout p;
           std_cerr :=
             (std_cerr p
              ++ [("usage: " ++ default "" (argv !! 0%nat)
                   ++ " <zip_file_path>")%string])%list |})
  else
    let table := generateCrc32Table (crc32Table p) in
    let argv1 := default "" (argv !! 1%nat) in
    let cout := (std_cout p ++ [("procesing " ++ argv1)%string])%list in
    let '((result, reason), cout) := isValidZipFile fs argv1 cout in
    let cout :=
      (cout ++ [(reason ++ " " ++ decimal (ErrorCode_value result))%string])%list
    in
    (ErrorCode_value result,
     {| crc32Table := table; std_cout := cout; std_cerr := std_cerr p |}).

End Seek.

(** ** The header layout, as the specification gives it *)

(** Follows the specification's data model (section 3): the eleven fields
    in byte order, each with the error that names a failed read of it and
    its width in bytes. *)
Definition header_layout : list (ErrorCode * nat) :=
  [ (ERR_HEADER_SIGNATURE_READ, 4);
    (ERR_HEADER_VERSION_NEEDED_READ, 2);
    (ERR_HEADER_FLAGS_READ, 2);
    (ERR_HEADER_COMPRESSION_METHOD_READ, 2);
    (ERR_HEADER_LAST_MOD_TIME_READ, 2);
    (ERR_HEADER_MOD_DATE_READ, 2);
    (ERR_HEADER_CRC32_READ, 4);
    (ERR_HEADER_COMPRESSED_SIZE_READ, 4);
    (ERR_HEADER_UNCOMPRESSED_SIZE_READ, 4);
    (ERR_HEADER_FILENAME_LENGTH_READ, 2);
    (ERR_HEADER_EXTRA_FIELD_LENGTH_READ, 2) ]%nat.

(** Follows the specification's words "the field-specific read-error
    corresponding to exactly where the byte stream runs out": the first
    field of the layout that the [available] bytes do not cover, [None]
    when they cover all of them. *)
Fixpoint runs_out_at (layout : list (ErrorCode * nat)) (available : nat)
  : option ErrorCode :=
  match layout with
  | [] => None
  | (e, width) :: layout' =>
      if (width <=? available)%nat
      then runs_out_at layout' (available - width)
      else Some e
  end.

(** The four bytes [isValidZipFile] compares the start of the file with. *)
Definition magic : list byte := [x50; x4b; x03; x04].

(** A stream in good state on the bytes [d], at position [p]. *)
Definition at_pos (d : list byte) (p : nat) : ifstream :=
  {| content := d; is_open := true; gpos := p; failbit := false |}.

(** The file system in which every path names the same bytes. *)
Definition only_file (d : list byte) : filesystem := fun _ => Some d.

(** The header [readLocalFileHeader] leaves behind when all eleven reads
    succeed on the bytes [d], read from position 0. *)
Definition decoded (d : list byte) : ZipLocalFileHeader :=
  {| signature := little_endian (take 4 (drop 0 d));
     versionNeeded := little_endian (take 2 (drop 4 d));
     flags := little_endian (take 2 (drop 6 d));
     compressionMethod := little_endian (take 2 (drop 8 d));
     lastModTime := little_endian (take 2 (drop 10 d));
     lastModDate := little_endian (take 2 (drop 12 d));
     crc32 := little_endian (take 4 (drop 14 d));
     compressedSize := little_endian (take 4 (drop 18 d));
     uncompressedSize := little_endian (take 4 (drop 22 d));
     fileNameLength := little_endian (take 2 (drop 26 d));
     extraFieldLength := little_endian (take 2 (drop 28 d)) |}.

(** The bytes declared by the header just read, as the program computes
    their number: in [unsigned int]. *)
Definition advance_of (h : ZipLocalFileHeader) : Z :=
  uint32 (fileNameLength h + extraFieldLength h + compressedSize h).

(** The outcome of [isValidZipFile] on a file that opens, written as a
    function of the three things the file contributes: its length, its
    first four bytes and the number of bytes its header declares. *)
Definition outcome_of (seek_past_end : bool) (len : nat) (first4 : list byte)
    (advance : Z) : ErrorCode * string :=
  if (len <? 4)%nat then (ERR_READ_FAIL, "failed to read from file")
  else if decide (first4 = magic)
  then match runs_out_at header_layout len with
       | Some e => (e, errorCodeToString e)
       | None =>
           if seek_past_end || (30 + advance <=? Z.of_nat len)
           then (OK, "the file is a valid ZIP file")
           else (ERR_READ_FAIL, "failed to seek in file")
       end
  else (ERR_MAGIC_NUMBER, "incorrect magic number").

(** The pairs of code and message that the [return] statements of
    [isValidZipFile] can produce, in the order of the function's text. *)
Definition outcomes : list (ErrorCode * string) :=
  [ (ERR_FILE_OPEN, "could not open file");
    (ERR_READ_FAIL, "failed to read from file");
    (ERR_MAGIC_NUMBER, "incorrect magic number");
    (ERR_HEADER_SIGNATURE_READ, "ERR_HEADER_SIGNATURE_READ");
    (ERR_HEADER_VERSION_NEEDED_READ, "ERR_HEADER_VERSION_NEEDED_READ");
    (ERR_HEADER_FLAGS_READ, "ERR_HEADER_FLAGS_READ");
    (ERR_HEADER_COMPRESSION_METHOD_READ, "ERR_HEADER_COMPRESSION_METHOD_READ");
    (ERR_HEADER_LAST_MOD_TIME_READ, "ERR_HEADER_LAST_MOD_TIME_READ");
    (ERR_HEADER_MOD_DATE_READ, "ERR_HEADER_MOD_DATE_READ");
    (ERR_HEADER_CRC32_READ, "ERR_HEADER_CRC32_READ");
    (ERR_HEADER_COMPRESSED_SIZE_READ, "ERR_HEADER_COMPRESSED_SIZE_READ");
    (ERR_HEADER_UNCOMPRESSED_SIZE_READ, "ERR_HEADER_UNCOMPRESSED_SIZE_READ");
    (ERR_HEADER_FILENAME_LENGTH_READ, "ERR_HEADER_FILENAME_LENGTH_READ");
    (ERR_HEADER_EXTRA_FIELD_LENGTH_READ, "ERR_HEADER_EXTRA_FIELD_LENGTH_READ");
    (ERR_READ_FAIL, "failed to seek in file");
    (OK, "the file is a valid ZIP file") ].

(** ** Sample files *)

(** The smallest well-formed file: the thirty header bytes, the four of
    the signature first and zeros after them. *)
Definition minimal_header : list byte :=
  (magic ++ replicate 26 x00)%list.

(** The minimal header with [compressionMethod] set to [m0 + 256 * m1]. *)
Definition header_with_method (m0 m1 : byte) : list byte :=
  (magic ++ replicate 4 x00 ++ [m0; m1] ++ replicate 20 x00)%list.

(** A header and nothing after it, declaring a one-byte file name and
    [0xffffffff] bytes of compressed data. *)
Definition wrapping_header : list byte :=
  (magic ++ replicate 14 x00 ++ [xff; xff; xff; xff] ++ replicate 4 x00
   ++ [x01; x00] ++ [x00; x00])%list.

(** The four magic bytes and ten bytes after them. *)
Definition fourteen_bytes : list byte := (magic ++ replicate 10 x00)%list.

(** The ASCII text [123456789]. *)
Definition check_text : list byte :=
  [x31; x32; x33; x34; x35; x36; x37; x38; x39].

(** * Properties *)

(** ** The stream *)

Lemma read_ok (d : list byte) (p n : nat) :
  (p + n <= length d)%nat ->
  read n (at_pos d p) = (Some (take n (drop p d)), at_pos d (p + n)).
Proof.
  intros H. unfold read, at_pos; simpl.
  destruct (Nat.leb_spec (p + n) (length d)); [reflexivity | lia].
Qed.

Lemma read_short (d : list byte) (p n : nat) :
  (length d < p + n)%nat ->
  read n (at_pos d p) =
  (None, {| content := d; is_open := true; gpos := max p (length d);
            failbit := true |}).
Proof.
  intros H. unfold read, at_pos; simpl.
  destruct (Nat.leb_spec (p + n) (length d)); [lia | reflexivity].
Qed.

(** [file.seekg(0, std::ios::beg)] puts a good stream back at offset 0. *)
Lemma seekg_rewind (seek_past_end : bool) (d : list byte) (p : nat) :
  seekg seek_past_end 0 beg (at_pos d p) = at_pos d 0.
Proof.
  unfold seekg, at_pos; cbn [failbit gpos content is_open].
  change (Z.of_nat 0 + 0) with 0. change (0 <? 0) with false.
  destruct (Z.ltb_spec (Z.of_nat (length d)) 0); [lia|].
  destruct seek_past_end; reflexivity.
Qed.

Lemma read_field_ok n store err d p h c :
  (p + n <= length d)%nat ->
  read_field n store err
    {| rd_file := at_pos d p; rd_header := h; rd_cout := c |} =
  (None, {| rd_file := at_pos d (p + n);
            rd_header := store (little_endian (take n (drop p d))) h;
            rd_cout := c |}).
Proof. intros H. unfold read_field; simpl. rewrite read_ok by done. done. Qed.

Lemma read_field_short n store err d p h c :
  (length d < p + n)%nat ->
  read_field n store err
    {| rd_file := at_pos d p; rd_header := h; rd_cout := c |} =
  (Some err,
   {| rd_file := {| content := d; is_open := true; gpos := max p (length d);
                    failbit := true |};
      rd_header := h; rd_cout := c |}).
Proof. intros H. unfold read_field; simpl. rewrite read_short by done. done. Qed.

Ltac read_next :=
  unfold then_ at 1;
  first [ rewrite read_field_ok by (simpl; lia)
        | rewrite read_field_short by (simpl; lia) ];
  cbv beta iota; simpl Nat.add.

Ltac print_next :=
  unfold then_ at 1, print_compressionMethod at 1;
  cbv beta iota; cbn [rd_file rd_header rd_cout].

Lemma readLocalFileHeader_complete d h c :
  (30 <= length d)%nat ->
  readLocalFileHeader {| rd_file := at_pos d 0; rd_header := h; rd_cout := c |}
  = (if signature (decoded d) =? PK_SIGNATURE then OK else ERR_HEADER_SIGNATURE,
     {| rd_file := at_pos d 30; rd_header := decoded d;
        rd_cout := (c ++ [compressionMethodToString
                            (compressionMethod (decoded d))])%list |}).
Proof.
  intros H. unfold readLocalFileHeader, readLocalFileHeader_body.
  do 4 read_next. print_next. do 7 read_next. unfold then_, check_signature, return_.
  cbn [rd_header rd_file rd_cout].
  change (signature (set_extraFieldLength _ _)) with (signature (decoded d)).
  destruct (signature (decoded d) =? PK_SIGNATURE); reflexivity.
Qed.

Lemma readLocalFileHeader_runs_out d h c e :
  runs_out_at header_layout (length d) = Some e ->
  (readLocalFileHeader
     {| rd_file := at_pos d 0; rd_header := h; rd_cout := c |}).1 = e.
Proof.
  unfold runs_out_at, header_layout.
  unfold readLocalFileHeader, readLocalFileHeader_body.
  repeat (match goal with
          | |- context [(?w <=? ?a)%nat] =>
              destruct (Nat.leb_spec w a)
          end;
          [ | intros [= <-]; repeat read_next;
              try (print_next; repeat read_next);
              reflexivity ]).
  discriminate.
Qed.

Lemma runs_out_at_None (n : nat) :
  runs_out_at header_layout n = None <-> (30 <= n)%nat.
Proof.
  unfold runs_out_at, header_layout.
  repeat (match goal with
          | |- context [(?w <=? ?a)%nat] => destruct (Nat.leb_spec w a)
          end; [ | split; [discriminate | lia] ]).
  split; [lia | reflexivity].
Qed.

Lemma runs_out_at_read_error (n : nat) (e : ErrorCode) :
  runs_out_at header_layout n = Some e -> e ∈ header_layout.*1.
Proof.
  unfold runs_out_at, header_layout.
  repeat (match goal with
          | |- context [(?w <=? ?a)%nat] => destruct (Nat.leb_spec w a)
          end; [ | intros [= <-]; apply list_elem_of_In; simpl; tauto ]).
  discriminate.
Qed.

Lemma read_error_not_OK (e : ErrorCode) :
  e ∈ header_layout.*1 -> e <> OK /\ e <> ERR_HEADER_SIGNATURE
                          /\ e <> ERR_FILE_OPEN.
Proof.
  unfold header_layout; simpl. rewrite !elem_of_cons, elem_of_nil.
  intros H. repeat (destruct H as [-> | H]; [repeat split; discriminate | ]).
  destruct H.
Qed.

(** ** The magic number *)

Lemma byte_val_inj (a b : byte) : byte_val a = byte_val b -> a = b.
Proof.
  unfold byte_val. intros H%N2Z.inj.
  pose proof (Byte.of_to_N a) as Ha. rewrite H, Byte.of_to_N in Ha.
  congruence.
Qed.

Lemma byte_val_range (b : byte) : 0 <= byte_val b < 256.
Proof. unfold byte_val. pose proof (Byte.to_N_bounded b). lia. Qed.

(** The comparison [isValidZipFile] makes on its four-byte buffer. *)
Lemma magic_check_iff (buffer : list byte) :
  length buffer = 4%nat ->
  (at_ buffer 0 =? 0x50) && (at_ buffer 1 =? 0x4B)
    && (at_ buffer 2 =? 0x03) && (at_ buffer 3 =? 0x04) = true
  <-> buffer = magic.
Proof.
  intros Hlen.
  destruct buffer as [|b0 [|b1 [|b2 [|b3 [|? ?]]]]]; try discriminate Hlen.
  unfold at_, magic; simpl.
  rewrite !andb_true_iff, !Z.eqb_eq. split.
  - intros [[[H0 H1] H2] H3].
    f_equal; [|f_equal; [|f_equal; [|f_equal]]];
      apply byte_val_inj; assumption.
  - intros [= -> -> -> ->]. repeat split.
Qed.

Lemma take_magic_length (d : list byte) : take 4 d = magic -> (4 <= length d)%nat.
Proof.
  intros H. apply (f_equal length) in H. rewrite length_take in H.
  change (length magic) with 4%nat in H. lia.
Qed.

(** ** The validator, case by case *)

Section Validator.

Variable seek_past_end : bool.
Variable fs : filesystem.
Variable filePath : string.
Variable d : list byte.
Variable cout : list string.
Hypothesis opened : fs filePath = Some d.

Lemma ifstream_open_some : ifstream_open fs filePath = at_pos d 0.
Proof. unfold ifstream_open. rewrite opened. reflexivity. Qed.

Lemma isValidZipFile_too_short :
  (length d < 4)%nat ->
  isValidZipFile seek_past_end fs filePath cout
  = ((ERR_READ_FAIL, "failed to read from file"), cout).
Proof.
  intros H. unfold isValidZipFile. rewrite ifstream_open_some.
  rewrite read_short by (simpl; lia). reflexivity.
Qed.

Lemma isValidZipFile_bad_magic :
  (4 <= length d)%nat -> take 4 d <> magic ->
  isValidZipFile seek_past_end fs filePath cout
  = ((ERR_MAGIC_NUMBER, "incorrect magic number"), cout).
Proof.
  intros H Hm. unfold isValidZipFile. rewrite ifstream_open_some.
  rewrite read_ok by (simpl; lia). cbn [is_open at_pos negb].
  change (drop 0 d) with d.
  destruct (_ && _) eqn:E; [|reflexivity].
  apply magic_check_iff in E; [contradiction|].
  rewrite length_take. lia.
Qed.

(** Past the magic number: the reader runs on the stream put back at
    offset 0, and its result decides the rest. *)
Lemma isValidZipFile_magic_ok :
  take 4 d = magic ->
  isValidZipFile seek_past_end fs filePath cout
  = let '(errorCode, r) :=
      readLocalFileHeader
        {| rd_file := at_pos d 0; rd_header := header_uninitialised;
           rd_cout := cout |} in
    let header := rd_header r in
    if decide (errorCode <> OK)
    then ((errorCode, errorCodeToString errorCode), rd_cout r)
    else
      let advance :=
        uint32 (fileNameLength header + extraFieldLength header
                + compressedSize header) in
      let file := seekg seek_past_end advance cur (rd_file r) in
      if failbit file
      then ((ERR_READ_FAIL, "failed to seek in file"), rd_cout r)
      else ((OK, "the file is a valid ZIP file"), rd_cout r).
Proof.
  intros Hm. pose proof (take_magic_length _ Hm) as H.
  unfold isValidZipFile. rewrite ifstream_open_some.
  rewrite read_ok by (simpl; lia). cbn [is_open at_pos negb].
  change (drop 0 d) with d.
  destruct (_ && _) eqn:E.
  - cbn [negb]. rewrite seekg_rewind. reflexivity.
  - exfalso. apply (proj2 (magic_check_iff (take 4 d)
                             ltac:(rewrite length_take; lia))) in Hm.
    congruence.
Qed.

Lemma isValidZipFile_truncated (e : ErrorCode) :
  take 4 d = magic ->
  runs_out_at header_layout (length d) = Some e ->
  (isValidZipFile seek_past_end fs filePath cout).1
  = (e, errorCodeToString e).
Proof.
  intros Hm He. rewrite (isValidZipFile_magic_ok Hm).
  pose proof (readLocalFileHeader_runs_out d header_uninitialised cout e He)
    as Hr.
  destruct (readLocalFileHeader _) as [errorCode r]. simpl in Hr. subst.
  apply runs_out_at_read_error, read_error_not_OK in He as (? & _).
  destruct (decide (e <> OK)); [reflexivity | contradiction].
Qed.

Lemma signature_of_magic :
  take 4 d = magic -> signature (decoded d) = PK_SIGNATURE.
Proof. intros Hm. simpl. change (drop 0 d) with d. rewrite Hm. reflexivity. Qed.

Lemma isValidZipFile_complete :
  take 4 d = magic -> (30 <= length d)%nat ->
  isValidZipFile seek_past_end fs filePath cout
  = (if seek_past_end
        || (30 + advance_of (decoded d) <=? Z.of_nat (length d))
     then (OK, "the file is a valid ZIP file")
     else (ERR_READ_FAIL, "failed to seek in file"),
     (cout ++ [compressionMethodToString
                 (compressionMethod (decoded d))])%list).
Proof.
  intros Hm H. rewrite (isValidZipFile_magic_ok Hm).
  rewrite readLocalFileHeader_complete by done.
  rewrite (signature_of_magic Hm), Z.eqb_refl.
  destruct (decide (OK <> OK)) as [?|_]; [done|].
  cbn [rd_header rd_file rd_cout].
  fold (advance_of (decoded d)).
  assert (0 <= advance_of (decoded d)) as Hadv
    by (unfold advance_of, uint32; apply Z.mod_pos_bound; lia).
  unfold seekg, at_pos. cbn [failbit gpos content is_open].
  destruct (Z.ltb_spec (Z.of_nat 30 + advance_of (decoded d)) 0); [lia|].
  destruct seek_past_end; cbn [negb andb orb]; [reflexivity|].
  change (Z.of_nat 30) with 30.
  destruct (Z.ltb_spec (Z.of_nat (length d)) (30 + advance_of (decoded d)));
    destruct (Z.leb_spec (30 + advance_of (decoded d)) (Z.of_nat (length d)));
    try lia; reflexivity.
Qed.

(** All cases together. *)
Lemma isValidZipFile_outcome :
  (isValidZipFile seek_past_end fs filePath cout).1
  = outcome_of seek_past_end (length d) (take 4 d) (advance_of (decoded d)).
Proof.
  unfold outcome_of.
  destruct (Nat.ltb_spec (length d) 4) as [Hlt|Hge].
  { rewrite isValidZipFile_too_short by done. reflexivity. }
  destruct (decide (take 4 d = magic)) as [Hm|Hm].
  2: { rewrite isValidZipFile_bad_magic by done. reflexivity. }
  destruct (runs_out_at header_layout (length d)) as [e|] eqn:He.
  { apply isValidZipFile_truncated; done. }
  apply runs_out_at_None in He.
  rewrite isValidZipFile_complete by done. reflexivity.
Qed.

End Validator.

Lemma isValidZipFile_not_opened seek_past_end fs filePath cout :
  fs filePath = None ->
  isValidZipFile seek_past_end fs filePath cout
  = ((ERR_FILE_OPEN, "could not open file"), cout).
Proof.
  intros H. unfold isValidZipFile, ifstream_open. rewrite H. reflexivity.
Qed.

(** ** Which bytes of the file matter *)

Lemma slice_ext (d1 d2 : list byte) (p n : nat) :
  (forall i, (p <= i < p + n)%nat -> d1 !! i = d2 !! i) ->
  take n (drop p d1) = take n (drop p d2).
Proof.
  intros H. apply list_eq; intros i. rewrite !lookup_take.
  case_decide; [|reflexivity]. rewrite !lookup_drop. apply H. lia.
Qed.

(** Files of one length that agree on the first thirty bytes other than
    the two of [compressionMethod] get the same verdict. *)
Lemma outcome_depends_on (seek_past_end : bool) (d1 d2 : list byte) :
  length d1 = length d2 ->
  (forall i, (i < 30)%nat -> i <> 8%nat -> i <> 9%nat -> d1 !! i = d2 !! i) ->
  outcome_of seek_past_end (length d1) (take 4 d1) (advance_of (decoded d1))
  = outcome_of seek_past_end (length d2) (take 4 d2) (advance_of (decoded d2)).
Proof.
  intros Hlen H.
  assert (forall p n, (p + n <= 30)%nat -> (p + n <= 8 \/ 10 <= p)%nat ->
            take n (drop p d1) = take n (drop p d2)) as Hs.
  { intros p n ? ?. apply slice_ext. intros i ?. apply H; lia. }
  rewrite <- Hlen. f_equal.
  - apply (Hs 0%nat 4%nat); lia.
  - unfold advance_of, decoded; cbn [fileNameLength extraFieldLength compressedSize].
    rewrite (Hs 26%nat 2%nat), (Hs 28%nat 2%nat), (Hs 18%nat 4%nat) by lia.
    reflexivity.
Qed.

(** ** The CRC table *)

Lemma fill_table (f : nat -> Z) (n k : nat) (t : list Z) :
  length t = (k + n)%nat ->
  foldl (fun table i => <[ i := f i ]> table) t (seq k n)
  = (take k t ++ (f <$> seq k n))%list.
Proof.
  revert k t. induction n as [|n IH]; intros k t Hlen; simpl.
  - rewrite take_ge by lia. symmetry. apply app_nil_r.
  - rewrite IH by (rewrite length_insert; lia).
    rewrite (take_S_r _ k (f k)) by (apply list_lookup_insert_eq; lia).
    rewrite take_insert_ge by lia. rewrite <- app_assoc. reflexivity.
Qed.

Lemma generateCrc32Table_fills (t : list Z) :
  length t = 256%nat ->
  generateCrc32Table t = crc_entry <$> seq 0 256.
Proof.
  intros H. unfold generateCrc32Table. rewrite fill_table by done.
  reflexivity.
Qed.

Lemma little_endian_nonneg (bytes : list byte) : 0 <= little_endian bytes.
Proof.
  induction bytes as [|b bytes IH]; simpl; [lia|].
  apply Z.lor_nonneg. split; [apply byte_val_range|].
  apply Z.shiftl_nonneg, IH.
Qed.

Lemma outcome_of_not_file_open seek_past_end len first4 advance :
  (outcome_of seek_past_end len first4 advance).1 <> ERR_FILE_OPEN
  /\ (outcome_of seek_past_end len first4 advance).1 <> ERR_HEADER_SIGNATURE.
Proof.
  unfold outcome_of.
  destruct (len <? 4)%nat; [split; discriminate|].
  destruct (decide (first4 = magic)) as [Hm|Hm]; [|split; discriminate].
  destruct (runs_out_at header_layout len) as [e|] eqn:He.
  - apply runs_out_at_read_error, read_error_not_OK in He as (_ & ? & ?).
    split; assumption.
  - destruct (_ || _); split; discriminate.
Qed.

(** When the sum of the three declared lengths stays below [2 ^ 32] and
    the stream refuses positions past the end, a header that declares
    more bytes than follow it is turned down. *)
Lemma trailer_check_without_wrap fs filePath d cout :
  fs filePath = Some d -> take 4 d = magic -> (30 <= length d)%nat ->
  fileNameLength (decoded d) + extraFieldLength (decoded d)
    + compressedSize (decoded d) < 2 ^ 32 ->
  Z.of_nat (length d) - 30
    < fileNameLength (decoded d) + extraFieldLength (decoded d)
      + compressedSize (decoded d) ->
  (isValidZipFile false fs filePath cout).1
  = (ERR_READ_FAIL, "failed to seek in file").
Proof.
  intros Hopen Hm Hlen Hsmall Hmore.
  rewrite (isValidZipFile_complete false fs filePath d cout) by done.
  unfold advance_of, uint32.
  rewrite Z.mod_small.
  - cbn [orb fst].
    destruct (Z.leb_spec
                (30 + (fileNameLength (decoded d) + extraFieldLength (decoded d)
                       + compressedSize (decoded d)))
                (Z.of_nat (length d))); [lia | reflexivity].
  - split; [|assumption].
    cbn [decoded fileNameLength extraFieldLength compressedSize].
    pose proof (little_endian_nonneg (take 2 (drop 26 d))).
    pose proof (little_endian_nonneg (take 2 (drop 28 d))).
    pose proof (little_endian_nonneg (take 4 (drop 18 d))).
    lia.
Qed.

(** * The specification's properties *)

(** C1.  The trailer bounds check adds [fileNameLength],
    [extraFieldLength] and [compressedSize] in 32-bit unsigned
    arithmetic, so the sum wraps around: the thirty-byte file
    [wrapping_header] declares [2 ^ 32] bytes after its header, none
    follow, the program seeks forward by [0] bytes and reports a valid
    ZIP file, whatever the stream does with positions past the end. *)
Theorem trailer_sum_wraps_around (seek_past_end : bool) (filePath : string)
    (cout : list string) :
  let h := decoded wrapping_header in
  length wrapping_header = 30%nat
  /\ take 4 wrapping_header = magic
  /\ fileNameLength h + extraFieldLength h + compressedSize h = 2 ^ 32
  /\ advance_of h = 0
  /\ (isValidZipFile seek_past_end (only_file wrapping_header) filePath cout).1
     = (OK, "the file is a valid ZIP file").
Proof.
  cbv zeta. repeat split.
  rewrite (isValidZipFile_complete seek_past_end _ filePath wrapping_header)
    by (reflexivity || (vm_compute; lia)).
  change (advance_of (decoded wrapping_header)) with 0.
  change (30 + 0 <=? Z.of_nat (length wrapping_header)) with true.
  rewrite orb_true_r. reflexivity.
Qed.

(** C2, as the specification words its example: a file of fourteen bytes,
    the four magic bytes and ten more, does not stop at the read of
    [compressionMethod]; the reads up to [lastModDate] use the fourteen
    bytes up and the read of [crc32] fails. *)
Lemma fourteen_bytes_stop_at_crc32 :
  length fourteen_bytes = 14%nat
  /\ take 4 fourteen_bytes = magic
  /\ (isValidZipFile false (only_file fourteen_bytes) "archive.zip" []).1
     = (ERR_HEADER_CRC32_READ, "ERR_HEADER_CRC32_READ")
  /\ (isValidZipFile false (only_file fourteen_bytes) "archive.zip" []).1.1
     <> ERR_HEADER_COMPRESSION_METHOD_READ.
Proof. repeat split. vm_compute. discriminate. Qed.

(** C2.  A file that starts with the magic number and has fewer than
    thirty bytes is answered with the read error of the first header
    field its bytes do not cover, and with that error's name as message;
    the field is a function of the length alone.  Fourteen bytes stop at
    [crc32]; the read of [compressionMethod] is the one that fails
    exactly for files of eight or nine bytes. *)
Theorem truncated_header_read_error (seek_past_end : bool) (fs : filesystem)
    (filePath : string) (d : list byte) (cout : list string) :
  fs filePath = Some d ->
  take 4 d = magic ->
  (length d < 30)%nat ->
  exists e,
    runs_out_at header_layout (length d) = Some e
    /\ (isValidZipFile seek_past_end fs filePath cout).1
       = (e, errorCodeToString e)
    /\ (length d = 14%nat -> e = ERR_HEADER_CRC32_READ)
    /\ (e = ERR_HEADER_COMPRESSION_METHOD_READ <-> (8 <= length d < 10)%nat).
Proof.
  intros Hopen Hm Hlen.
  destruct (runs_out_at header_layout (length d)) as [e|] eqn:He.
  2: { apply runs_out_at_None in He. lia. }
  exists e. split; [reflexivity|]. split.
  { apply (isValidZipFile_truncated seek_past_end fs filePath d cout); done. }
  pose proof (take_magic_length _ Hm) as H4.
  revert He. unfold runs_out_at, header_layout.
  repeat (match goal with
          | |- context [(?w <=? ?a)%nat] => destruct (Nat.leb_spec w a)
          end;
          [ | intros [= <-];
              split; [intros; first [reflexivity | lia]
                     | split; intros; first [discriminate | lia | reflexivity]] ]).
  discriminate.
Qed.

Lemma truncated_header_read_error_witness :
  exists e,
    runs_out_at header_layout (length fourteen_bytes) = Some e
    /\ (isValidZipFile true (only_file fourteen_bytes) "archive.zip" []).1
       = (e, errorCodeToString e)
    /\ (length fourteen_bytes = 14%nat -> e = ERR_HEADER_CRC32_READ)
    /\ (e = ERR_HEADER_COMPRESSION_METHOD_READ
        <-> (8 <= length fourteen_bytes < 10)%nat).
Proof.
  apply (truncated_header_read_error true (only_file fourteen_bytes)
           "archive.zip" fourteen_bytes []).
  - reflexivity.
  - reflexivity.
  - vm_compute. lia.
Defined.

(** C3.  [readLocalFileHeader] answers [ERR_HEADER_SIGNATURE] only with
    all eleven fields read (thirty bytes consumed, every field of the
    header assigned) and the decoded signature different from
    [0x04034b50], and it does answer so whenever thirty bytes are there
    and the signature differs.  [isValidZipFile] never answers
    [ERR_HEADER_SIGNATURE]: once the four magic bytes have been compared,
    the reader decodes the same four bytes into [0x04034b50]. *)
Theorem signature_checked_last_and_redundant :
  (forall d h c r',
      readLocalFileHeader
        {| rd_file := at_pos d 0; rd_header := h; rd_cout := c |}
      = (ERR_HEADER_SIGNATURE, r') ->
      (30 <= length d)%nat
      /\ rd_file r' = at_pos d 30
      /\ rd_header r' = decoded d
      /\ signature (decoded d) <> PK_SIGNATURE)
  /\ (forall d h c,
        (30 <= length d)%nat ->
        signature (decoded d) <> PK_SIGNATURE ->
        (readLocalFileHeader
           {| rd_file := at_pos d 0; rd_header := h; rd_cout := c |}).1
        = ERR_HEADER_SIGNATURE)
  /\ (forall seek_past_end fs filePath cout,
        (isValidZipFile seek_past_end fs filePath cout).1.1
        <> ERR_HEADER_SIGNATURE).
Proof.
  split; [|split].
  - intros d h c r' Hr.
    destruct (runs_out_at header_layout (length d)) as [e|] eqn:He.
    + pose proof (readLocalFileHeader_runs_out d h c e He) as Hcode.
      rewrite Hr in Hcode; simpl in Hcode. subst e.
      apply runs_out_at_read_error, read_error_not_OK in He as (_ & ? & _).
      contradiction.
    + apply runs_out_at_None in He.
      rewrite readLocalFileHeader_complete in Hr by done.
      destruct (Z.eqb_spec (signature (decoded d)) PK_SIGNATURE) as [Heq|Hne];
        [discriminate|].
      injection Hr as <-. repeat split; assumption.
  - intros d h c Hlen Hne.
    rewrite readLocalFileHeader_complete by done.
    destruct (Z.eqb_spec (signature (decoded d)) PK_SIGNATURE);
      [contradiction | reflexivity].
  - intros seek_past_end fs filePath cout.
    destruct (fs filePath) as [d|] eqn:Hopen.
    + rewrite (isValidZipFile_outcome seek_past_end fs filePath d cout Hopen).
      apply outcome_of_not_file_open.
    + rewrite isValidZipFile_not_opened by done. discriminate.
Qed.

Lemma signature_checked_last_and_redundant_witness :
  (readLocalFileHeader
     {| rd_file := at_pos (replicate 30 x00) 0;
        rd_header := header_uninitialised; rd_cout := [] |}).1
  = ERR_HEADER_SIGNATURE.
Proof.
  apply (proj1 (proj2 signature_checked_last_and_redundant)).
  - simpl. lia.
  - vm_compute. discriminate.
Defined.

(** C4.  The checksum does not depend on what the global table held
    before [generateCrc32Table] ran, and running [generateCrc32Table]
    again leaves the table as it is, so two computations over the same
    bytes give the same value; the checksum of no bytes is [0], and that
    of the nine bytes of [123456789] is [0xCBF43926]. *)
Theorem crc32_deterministic_with_check_values (t1 t2 : list Z)
    (data : list byte) :
  length t1 = 256%nat ->
  length t2 = 256%nat ->
  computeCrc32 (generateCrc32Table t1) data
  = computeCrc32 (generateCrc32Table t2) data
  /\ generateCrc32Table (generateCrc32Table t1) = generateCrc32Table t1
  /\ computeCrc32 (generateCrc32Table t1) [] = 0x00000000
  /\ computeCrc32 (generateCrc32Table t1) check_text = 0xCBF43926.
Proof.
  intros H1 H2.
  rewrite (generateCrc32Table_fills t1), (generateCrc32Table_fills t2) by done.
  split; [reflexivity|]. split.
  { apply generateCrc32Table_fills. rewrite length_fmap, length_seq.
    reflexivity. }
  split; vm_compute; reflexivity.
Qed.

Lemma crc32_deterministic_with_check_values_witness :
  computeCrc32 (generateCrc32Table crc32Table_init) check_text
  = computeCrc32 (generateCrc32Table (replicate 256 0xffffffff)) check_text
  /\ generateCrc32Table (generateCrc32Table crc32Table_init)
     = generateCrc32Table crc32Table_init
  /\ computeCrc32 (generateCrc32Table crc32Table_init) [] = 0x00000000
  /\ computeCrc32 (generateCrc32Table crc32Table_init) check_text = 0xCBF43926.
Proof.
  apply (crc32_deterministic_with_check_values
           crc32Table_init (replicate 256 0xffffffff) check_text);
    reflexivity.
Defined.

(** C5.  The thirty-byte header made of the signature bytes and zeros,
    with nothing after it, decodes to the signature [0x04034b50] and
    zeros in every other field, and [isValidZipFile] answers [OK] with
    its message [the file is a valid ZIP file]. *)
Theorem minimal_header_is_valid (seek_past_end : bool) (fs : filesystem)
    (filePath : string) (cout : list string) :
  fs filePath = Some minimal_header ->
  length minimal_header = 30%nat
  /\ decoded minimal_header
     = {| signature := 0x04034b50; versionNeeded := 0; flags := 0;
          compressionMethod := 0; lastModTime := 0; lastModDate := 0;
          crc32 := 0; compressedSize := 0; uncompressedSize := 0;
          fileNameLength := 0; extraFieldLength := 0 |}
  /\ isValidZipFile seek_past_end fs filePath cout
     = ((OK, "the file is a valid ZIP file"),
        (cout ++ ["no compression"])%list).
Proof.
  intros Hopen. split; [reflexivity|]. split; [reflexivity|].
  rewrite (isValidZipFile_complete seek_past_end fs filePath minimal_header)
    by (done || (vm_compute; lia)).
  change (30 + advance_of (decoded minimal_header)
          <=? Z.of_nat (length minimal_header)) with true.
  rewrite orb_true_r. reflexivity.
Qed.

Lemma minimal_header_is_valid_witness :
  length minimal_header = 30%nat
  /\ decoded minimal_header
     = {| signature := 0x04034b50; versionNeeded := 0; flags := 0;
          compressionMethod := 0; lastModTime := 0; lastModDate := 0;
          crc32 := 0; compressedSize := 0; uncompressedSize := 0;
          fileNameLength := 0; extraFieldLength := 0 |}
  /\ isValidZipFile false (only_file minimal_header) "archive.zip" []
     = ((OK, "the file is a valid ZIP file"), ["no compression"]).
Proof.
  apply (minimal_header_is_valid false (only_file minimal_header)
           "archive.zip" []).
  reflexivity.
Defined.

(** C6.  A file of at least four bytes whose first four are not
    [50 4B 03 04] is answered with [ERR_MAGIC_NUMBER], whatever its other
    bytes are. *)
Theorem wrong_magic_rejected (seek_past_end : bool) (fs : filesystem)
    (filePath : string) (d : list byte) (cout : list string) :
  fs filePath = Some d ->
  (4 <= length d)%nat ->
  take 4 d <> magic ->
  isValidZipFile seek_past_end fs filePath cout
  = ((ERR_MAGIC_NUMBER, "incorrect magic number"), cout).
Proof. intros. apply (isValidZipFile_bad_magic _ _ _ d); assumption. Qed.

Lemma wrong_magic_rejected_witness :
  isValidZipFile false (only_file [x50; x4b; x03; x05; xff]) "archive.zip" []
  = ((ERR_MAGIC_NUMBER, "incorrect magic number"), []).
Proof.
  apply (wrong_magic_rejected false _ "archive.zip" [x50; x4b; x03; x05; xff]).
  - reflexivity.
  - simpl. lia.
  - discriminate.
Defined.

(** C7.  A file that opens and has fewer than four bytes is answered with
    [ERR_READ_FAIL], from the read of the magic number and not from a
    read of a header field; [ERR_FILE_OPEN] is the answer exactly when
    the file does not open. *)
Theorem short_input_read_failure (seek_past_end : bool) (fs : filesystem)
    (filePath : string) (cout : list string) :
  (forall d, fs filePath = Some d -> (length d < 4)%nat ->
     isValidZipFile seek_past_end fs filePath cout
     = ((ERR_READ_FAIL, "failed to read from file"), cout))
  /\ ((isValidZipFile seek_past_end fs filePath cout).1.1 = ERR_FILE_OPEN
      <-> fs filePath = None).
Proof.
  split.
  - intros d Hopen Hlen. apply (isValidZipFile_too_short _ _ _ d); assumption.
  - destruct (fs filePath) as [d|] eqn:Hopen.
    + rewrite (isValidZipFile_outcome seek_past_end fs filePath d cout Hopen).
      split; [|discriminate]. intros H.
      exfalso. revert H. apply outcome_of_not_file_open.
    + rewrite isValidZipFile_not_opened by done. split; reflexivity.
Qed.

Lemma short_input_read_failure_witness :
  isValidZipFile false (only_file [x50; x4b; x03]) "archive.zip" []
  = ((ERR_READ_FAIL, "failed to read from file"), []).
Proof.
  apply (proj1 (short_input_read_failure false (only_file [x50; x4b; x03])
                  "archive.zip" []) [x50; x4b; x03]).
  - reflexivity.
  - simpl. lia.
Defined.

(** C8.  The eighteen error codes have the values 0 to 17 in the order of
    their declaration; [main] exits with the value of the code that
    [isValidZipFile] returned (and with that of [ERR_ARGUMENTS] when no
    path is given), and [OK] is the only code whose value is 0. *)
Theorem error_code_values_and_exit_status :
  ErrorCode_value <$>
    [OK; ERR_ARGUMENTS; ERR_FILE_OPEN; ERR_MAGIC_NUMBER; ERR_HEADER_SIGNATURE;
     ERR_HEADER_READ; ERR_HEADER_SIGNATURE_READ;
     ERR_HEADER_VERSION_NEEDED_READ; ERR_HEADER_FLAGS_READ;
     ERR_HEADER_COMPRESSION_METHOD_READ; ERR_HEADER_LAST_MOD_TIME_READ;
     ERR_HEADER_MOD_DATE_READ; ERR_HEADER_CRC32_READ;
     ERR_HEADER_COMPRESSED_SIZE_READ; ERR_HEADER_UNCOMPRESSED_SIZE_READ;
     ERR_HEADER_FILENAME_LENGTH_READ; ERR_HEADER_EXTRA_FIELD_LENGTH_READ;
     ERR_READ_FAIL]
  = [0; 1; 2; 3; 4; 5; 6; 7; 8; 9; 10; 11; 12; 13; 14; 15; 16; 17]
  /\ (forall seek_past_end fs argv p,
        (main seek_past_end fs argv p).1
        = if (length argv <? 2)%nat
          then ErrorCode_value ERR_ARGUMENTS
          else
            let argv1 := default "" (argv !! 1%nat) in
            ErrorCode_value
              (isValidZipFile seek_past_end fs argv1
                 (std_cout p ++ [("procesing " ++ argv1)%string])%list).1.1)
  /\ (forall e, ErrorCode_value e = 0 <-> e = OK).
Proof.
  split; [reflexivity|]. split.
  - intros seek_past_end fs argv p. unfold main.
    destruct (Nat.ltb_spec (length argv) 2);
      destruct (Z.ltb_spec (Z.of_nat (length argv)) 2); try lia.
    + reflexivity.
    + cbv zeta. destruct (isValidZipFile _ _ _ _) as [[result reason] cout'].
      reflexivity.
  - intros e. split.
    + destruct e; first [reflexivity | intros H; vm_compute in H; discriminate H].
    + intros ->. reflexivity.
Qed.

(** C9.  The label of method 8 is [deflated], that of 99 and of every
    other value outside 0..19 and 98 is [unknown]; a complete header
    carrying either method is accepted and its label is what the reader
    prints; and two files of one length that differ only in the two bytes
    of [compressionMethod] get the same answer and the same message. *)
Theorem compression_label_does_not_decide :
  compressionMethodToString 8 = "deflated"
  /\ compressionMethodToString 99 = "unknown"
  /\ (forall m, ~ (0 <= m <= 19) -> m <> 98 ->
        compressionMethodToString m = "unknown")
  /\ (forall seek_past_end filePath cout,
        isValidZipFile seek_past_end (only_file (header_with_method x08 x00))
          filePath cout
        = ((OK, "the file is a valid ZIP file"), (cout ++ ["deflated"])%list)
        /\ isValidZipFile seek_past_end
             (only_file (header_with_method x63 x00)) filePath cout
           = ((OK, "the file is a valid ZIP file"),
              (cout ++ ["unknown"])%list))
  /\ (forall seek_past_end fs1 fs2 path1 path2 d1 d2 cout1 cout2,
        fs1 path1 = Some d1 -> fs2 path2 = Some d2 ->
        length d1 = length d2 ->
        (forall i, i <> 8%nat -> i <> 9%nat -> d1 !! i = d2 !! i) ->
        (isValidZipFile seek_past_end fs1 path1 cout1).1
        = (isValidZipFile seek_past_end fs2 path2 cout2).1).
Proof.
  split; [reflexivity|]. split; [reflexivity|]. split; [|split].
  - intros m Hrange H98.
    destruct m as [|p|p]; [lia | | reflexivity].
    do 7 (try (destruct p as [p|p|]));
      first [reflexivity | exfalso; lia].
  - intros seek_past_end filePath cout. split.
    + rewrite (isValidZipFile_complete seek_past_end _ filePath
                 (header_with_method x08 x00))
        by (reflexivity || (vm_compute; lia)).
      change (30 + advance_of (decoded (header_with_method x08 x00))
              <=? Z.of_nat (length (header_with_method x08 x00))) with true.
      rewrite orb_true_r. reflexivity.
    + rewrite (isValidZipFile_complete seek_past_end _ filePath
                 (header_with_method x63 x00))
        by (reflexivity || (vm_compute; lia)).
      change (30 + advance_of (decoded (header_with_method x63 x00))
              <=? Z.of_nat (length (header_with_method x63 x00))) with true.
      rewrite orb_true_r. reflexivity.
  - intros seek_past_end fs1 fs2 path1 path2 d1 d2 cout1 cout2 H1 H2 Hlen Hd.
    rewrite (isValidZipFile_outcome seek_past_end fs1 path1 d1 cout1 H1).
    rewrite (isValidZipFile_outcome seek_past_end fs2 path2 d2 cout2 H2).
    apply outcome_depends_on; [assumption|]. intros i _. apply Hd.
Qed.

Lemma compression_label_does_not_decide_witness :
  (isValidZipFile false (only_file (header_with_method x08 x00))
     "archive.zip" []).1
  = (isValidZipFile false (only_file (header_with_method x63 x00))
       "other.zip" ["earlier line"]).1.
Proof.
  apply (proj2 (proj2 (proj2 (proj2 compression_label_does_not_decide)))
           false (only_file (header_with_method x08 x00))
           (only_file (header_with_method x63 x00))
           "archive.zip" "other.zip"
           (header_with_method x08 x00) (header_with_method x63 x00)).
  - reflexivity.
  - reflexivity.
  - reflexivity.
  - intros i H8 H9.
    do 30 (destruct i as [|i]; [first [reflexivity | contradiction]|]).
    reflexivity.
Defined.

(** C10.  Two files that open, have the same length and agree on their
    first thirty bytes get the same answer and the same message: nothing
    at offset 30 or beyond is looked at. *)
Theorem outcome_depends_on_header_and_length (seek_past_end : bool)
    (fs1 fs2 : filesystem) (path1 path2 : string) (d1 d2 : list byte)
    (cout1 cout2 : list string) :
  fs1 path1 = Some d1 ->
  fs2 path2 = Some d2 ->
  take 30 d1 = take 30 d2 ->
  length d1 = length d2 ->
  (isValidZipFile seek_past_end fs1 path1 cout1).1
  = (isValidZipFile seek_past_end fs2 path2 cout2).1.
Proof.
  intros H1 H2 Hhead Hlen.
  rewrite (isValidZipFile_outcome seek_past_end fs1 path1 d1 cout1 H1).
  rewrite (isValidZipFile_outcome seek_past_end fs2 path2 d2 cout2 H2).
  apply outcome_depends_on; [assumption|]. intros i Hi _ _.
  rewrite <- (lookup_take_lt d1 30 i), <- (lookup_take_lt d2 30 i) by lia.
  rewrite Hhead. reflexivity.
Qed.

Lemma outcome_depends_on_header_and_length_witness :
  (isValidZipFile false (only_file (minimal_header ++ [x00; x01])%list)
     "archive.zip" []).1
  = (isValidZipFile false (only_file (minimal_header ++ [xff; xfe])%list)
       "other.zip" []).1.
Proof.
  apply (outcome_depends_on_header_and_length false
           (only_file (minimal_header ++ [x00; x01])%list)
           (only_file (minimal_header ++ [xff; xfe])%list)
           "archive.zip" "other.zip"
           (minimal_header ++ [x00; x01])%list
           (minimal_header ++ [xff; xfe])%list [] []);
    reflexivity.
Defined.

(** * Further properties of the program *)

(** ** Little-endian decoding *)

Lemma lor_shiftl_8 (a x : Z) :
  0 <= a < 256 -> Z.lor a (Z.shiftl x 8) = a + 256 * x.
Proof.
  intros Ha.
  assert (Z.land a (Z.shiftl x 8) = 0) as Hdisjoint.
  { apply Z.bits_inj'. intros n Hn.
    rewrite Z.land_spec, Z.bits_0.
    destruct (Z.lt_ge_cases n 8).
    - rewrite Z.shiftl_spec_low by lia. apply andb_false_r.
    - rewrite <- (Z.mod_small a (2 ^ 8)) by lia.
      rewrite Z.mod_pow2_bits_high by lia. reflexivity. }
  rewrite <- Z.lxor_lor by assumption.
  rewrite <- Z.add_nocarry_lxor by assumption.
  rewrite Z.shiftl_mul_pow2 by lia. lia.
Qed.

Lemma little_endian_cons (b : byte) (bytes : list byte) :
  little_endian (b :: bytes) = byte_val b + 256 * little_endian bytes.
Proof. simpl. apply lor_shiftl_8, byte_val_range. Qed.

Lemma little_endian_bounds (bytes : list byte) :
  0 <= little_endian bytes < 2 ^ (8 * Z.of_nat (length bytes)).
Proof.
  induction bytes as [|b bytes IH].
  - simpl. lia.
  - rewrite little_endian_cons.
    replace (8 * Z.of_nat (length (b :: bytes)))
      with (8 + 8 * Z.of_nat (length bytes)) by (simpl length; lia).
    rewrite Z.pow_add_r by lia.
    pose proof (byte_val_range b). lia.
Qed.

Lemma little_endian_inj (bytes1 bytes2 : list byte) :
  length bytes1 = length bytes2 ->
  little_endian bytes1 = little_endian bytes2 ->
  bytes1 = bytes2.
Proof.
  revert bytes2.
  induction bytes1 as [|b1 bytes1 IH]; intros [|b2 bytes2] Hlen Heq;
    try discriminate Hlen; [reflexivity|].
  rewrite !little_endian_cons in Heq.
  pose proof (byte_val_range b1). pose proof (byte_val_range b2).
  assert (byte_val b1 = byte_val b2) as Hb by lia.
  f_equal.
  - apply byte_val_inj, Hb.
  - apply IH; [simpl in Hlen; lia | lia].
Qed.


(** X2.  Two runs of the same number of bytes that decode to the same
    value are the same bytes. *)
Theorem little_endian_injective (bytes1 bytes2 : list byte) :
  length bytes1 = length bytes2 ->
  little_endian bytes1 = little_endian bytes2 ->
  bytes1 = bytes2.
Proof. apply little_endian_inj. Qed.

Lemma little_endian_injective_witness :
  [x50; x4b; x03; x04] = magic.
Proof.
  apply (little_endian_injective [x50; x4b; x03; x04] magic); reflexivity.
Defined.

(** ** The header reader *)

Ltac run_reader := repeat (first [read_next | print_next]).

(** The cases of a file too short for the header, one per field; the
    case of thirty bytes or more is left as [False]. *)
Ltac by_length d :=
  let try_case k :=
    destruct (Nat.leb_spec k (length d)); [ | run_reader ] in
  try_case 4%nat; [ try_case 6%nat;
  [ try_case 8%nat; [ try_case 10%nat; [ try_case 12%nat;
  [ try_case 14%nat; [ try_case 18%nat; [ try_case 22%nat;
  [ try_case 26%nat; [ try_case 28%nat; [ try_case 30%nat;
  [ exfalso | ] | ] | ] | ] | ] | ] | ] | ] | ] | ] | ].

(** X3.  Whatever stream, header and output it is given,
    [readLocalFileHeader] answers [OK], [ERR_HEADER_SIGNATURE] or one of
    the eleven field read errors, and never any other code. *)
Theorem readLocalFileHeader_codes (r : Reader) :
  (readLocalFileHeader r).1 ∈
    [OK; ERR_HEADER_SIGNATURE; ERR_HEADER_SIGNATURE_READ;
     ERR_HEADER_VERSION_NEEDED_READ; ERR_HEADER_FLAGS_READ;
     ERR_HEADER_COMPRESSION_METHOD_READ; ERR_HEADER_LAST_MOD_TIME_READ;
     ERR_HEADER_MOD_DATE_READ; ERR_HEADER_CRC32_READ;
     ERR_HEADER_COMPRESSED_SIZE_READ; ERR_HEADER_UNCOMPRESSED_SIZE_READ;
     ERR_HEADER_FILENAME_LENGTH_READ; ERR_HEADER_EXTRA_FIELD_LENGTH_READ].
Proof.
  apply list_elem_of_In.
  unfold readLocalFileHeader, readLocalFileHeader_body, then_, read_field,
    print_compressionMethod, check_signature, return_.
  repeat (match goal with
          | |- context [read ?n ?f] => destruct (read n f) as [[?|] ?]
          end; cbn [rd_file rd_header rd_cout fst]; [ | simpl; tauto ]).
  destruct (negb _); simpl; tauto.
Qed.

(** X4.  On a stream that has already failed, [readLocalFileHeader]
    answers [ERR_HEADER_SIGNATURE_READ] and leaves the stream, the header
    and the output as they were. *)
Theorem readLocalFileHeader_on_failed_stream (r : Reader) :
  failbit (rd_file r) = true ->
  readLocalFileHeader r = (ERR_HEADER_SIGNATURE_READ, r).
Proof.
  intros Hfail. destruct r as [file header cout]. simpl in Hfail.
  unfold readLocalFileHeader, readLocalFileHeader_body.
  unfold then_ at 1. unfold read_field at 1, read. cbn [rd_file].
  rewrite Hfail. reflexivity.
Qed.

Lemma readLocalFileHeader_on_failed_stream_witness :
  readLocalFileHeader
    {| rd_file := ifstream_open (fun _ => None) "missing.zip";
       rd_header := header_uninitialised; rd_cout := [] |}
  = (ERR_HEADER_SIGNATURE_READ,
     {| rd_file := ifstream_open (fun _ => None) "missing.zip";
        rd_header := header_uninitialised; rd_cout := [] |}).
Proof.
  apply (readLocalFileHeader_on_failed_stream
           {| rd_file := ifstream_open (fun _ => None) "missing.zip";
              rd_header := header_uninitialised; rd_cout := [] |}).
  reflexivity.
Defined.

(** X5.  Read from the start of a file, [readLocalFileHeader] answers
    [OK] exactly when the file has at least thirty bytes and its first
    four are [50 4B 03 04]: the signature test on the decoded field and
    the byte-by-byte magic test accept the same files. *)
Theorem readLocalFileHeader_OK_iff (d : list byte) (h : ZipLocalFileHeader)
    (c : list string) :
  (readLocalFileHeader
     {| rd_file := at_pos d 0; rd_header := h; rd_cout := c |}).1 = OK
  <-> (30 <= length d)%nat /\ take 4 d = magic.
Proof.
  split.
  - intros Hok.
    destruct (runs_out_at header_layout (length d)) as [e|] eqn:He.
    + rewrite (readLocalFileHeader_runs_out d h c e He) in Hok. subst e.
      apply runs_out_at_read_error, read_error_not_OK in He as (? & _).
      contradiction.
    + apply runs_out_at_None in He. split; [assumption|].
      rewrite readLocalFileHeader_complete in Hok by assumption.
      cbn [fst] in Hok.
      destruct (Z.eqb_spec (signature (decoded d)) PK_SIGNATURE) as [Hs|Hs];
        [|discriminate].
      apply little_endian_inj.
      * rewrite length_take. change (length magic) with 4%nat. lia.
      * exact Hs.
  - intros [Hlen Hm].
    rewrite readLocalFileHeader_complete by assumption.
    rewrite (signature_of_magic d Hm), Z.eqb_refl. reflexivity.
Qed.

(** X6.  What [readLocalFileHeader] does never depends on what the header
    held before the call: the code, the stream and the output are the
    same for any two initial headers, and once the thirty bytes are there
    the header itself is the same too, every field having been
    overwritten. *)
Theorem readLocalFileHeader_overwrites_header (d : list byte)
    (h1 h2 : ZipLocalFileHeader) (c : list string) :
  let run h :=
    readLocalFileHeader
      {| rd_file := at_pos d 0; rd_header := h; rd_cout := c |} in
  (run h1).1 = (run h2).1
  /\ rd_file (run h1).2 = rd_file (run h2).2
  /\ rd_cout (run h1).2 = rd_cout (run h2).2
  /\ ((30 <= length d)%nat -> rd_header (run h1).2 = rd_header (run h2).2).
Proof.
  cbv zeta. destruct (Nat.le_gt_cases 30 (length d)) as [Hlen|Hlen].
  - rewrite !readLocalFileHeader_complete by assumption.
    repeat split; reflexivity.
  - unfold readLocalFileHeader, readLocalFileHeader_body.
    by_length d; [lia | ..];
      repeat split; first [reflexivity | intros; lia].
Qed.

Lemma readLocalFileHeader_overwrites_header_witness :
  rd_header
    (readLocalFileHeader
       {| rd_file := at_pos minimal_header 0;
          rd_header := header_uninitialised; rd_cout := [] |}).2
  = rd_header
      (readLocalFileHeader
         {| rd_file := at_pos minimal_header 0;
            rd_header := decoded wrapping_header; rd_cout := [] |}).2.
Proof.
  apply (readLocalFileHeader_overwrites_header minimal_header
           header_uninitialised (decoded wrapping_header) []).
  simpl. lia.
Defined.

(** X7.  When the thirty bytes are there, every field the reader stores
    fits the width the structure declares for it, 32 bits for
    [signature], [crc32] and the two sizes and 16 bits for the others, so
    the sum of the three lengths that [isValidZipFile] forms stays below
    [2 ^ 32 + 2 ^ 17]. *)
Theorem readLocalFileHeader_field_widths (d : list byte)
    (h : ZipLocalFileHeader) (c : list string) :
  (30 <= length d)%nat ->
  let header :=
    rd_header
      (readLocalFileHeader
         {| rd_file := at_pos d 0; rd_header := h; rd_cout := c |}).2 in
  0 <= signature header < 2 ^ 32
  /\ 0 <= versionNeeded header < 2 ^ 16
  /\ 0 <= flags header < 2 ^ 16
  /\ 0 <= compressionMethod header < 2 ^ 16
  /\ 0 <= lastModTime header < 2 ^ 16
  /\ 0 <= lastModDate header < 2 ^ 16
  /\ 0 <= crc32 header < 2 ^ 32
  /\ 0 <= compressedSize header < 2 ^ 32
  /\ 0 <= uncompressedSize header < 2 ^ 32
  /\ 0 <= fileNameLength header < 2 ^ 16
  /\ 0 <= extraFieldLength header < 2 ^ 16
  /\ 0 <= fileNameLength header + extraFieldLength header
          + compressedSize header < 2 ^ 32 + 2 ^ 17.
Proof.
  intros Hlen. cbv zeta.
  rewrite readLocalFileHeader_complete by assumption.
  cbn [snd rd_header decoded signature versionNeeded flags compressionMethod
       lastModTime lastModDate crc32 compressedSize uncompressedSize
       fileNameLength extraFieldLength].
  assert (forall p n, (p + n <= 30)%nat ->
            0 <= little_endian (take n (drop p d)) < 2 ^ (8 * Z.of_nat n))
    as Hfield.
  { intros p n Hpn.
    pose proof (little_endian_bounds (take n (drop p d))) as Hb.
    rewrite length_take, length_drop in Hb.
    replace (n `min` (length d - p))%nat with n in Hb by lia. exact Hb. }
  pose proof (Hfield 0%nat 4%nat ltac:(lia)).
  pose proof (Hfield 4%nat 2%nat ltac:(lia)).
  pose proof (Hfield 6%nat 2%nat ltac:(lia)).
  pose proof (Hfield 8%nat 2%nat ltac:(lia)).
  pose proof (Hfield 10%nat 2%nat ltac:(lia)).
  pose proof (Hfield 12%nat 2%nat ltac:(lia)).
  pose proof (Hfield 14%nat 4%nat ltac:(lia)).
  pose proof (Hfield 18%nat 4%nat ltac:(lia)).
  pose proof (Hfield 22%nat 4%nat ltac:(lia)).
  pose proof (Hfield 26%nat 2%nat ltac:(lia)).
  pose proof (Hfield 28%nat 2%nat ltac:(lia)).
  change (8 * Z.of_nat 4) with 32 in *. change (8 * Z.of_nat 2) with 16 in *.
  repeat split; lia.
Qed.

Lemma readLocalFileHeader_field_widths_witness :
  0 <= compressedSize
         (rd_header
            (readLocalFileHeader
               {| rd_file := at_pos wrapping_header 0;
                  rd_header := header_uninitialised; rd_cout := [] |}).2)
    < 2 ^ 32.
Proof.
  apply (readLocalFileHeader_field_widths wrapping_header
           header_uninitialised []).
  simpl. lia.
Defined.

(** The lines the reader adds to the output. *)
Lemma readLocalFileHeader_cout (d : list byte) (h : ZipLocalFileHeader)
    (c : list string) :
  rd_cout
    (readLocalFileHeader
       {| rd_file := at_pos d 0; rd_header := h; rd_cout := c |}).2
  = if (10 <=? length d)%nat
    then (c ++ [compressionMethodToString
                  (little_endian (take 2 (drop 8 d)))])%list
    else c.
Proof.
  destruct (Nat.le_gt_cases 30 (length d)) as [Hlen|Hlen].
  - rewrite readLocalFileHeader_complete by assumption.
    destruct (Nat.leb_spec 10 (length d)); [reflexivity | lia].
  - unfold readLocalFileHeader, readLocalFileHeader_body.
    by_length d; [lia | ..];
      destruct (Nat.leb_spec 10 (length d)); first [lia | reflexivity].
Qed.

Lemma isValidZipFile_cout seek_past_end fs filePath d cout :
  fs filePath = Some d ->
  (isValidZipFile seek_past_end fs filePath cout).2
  = if decide (take 4 d = magic /\ (10 <= length d)%nat)
    then (cout ++ [compressionMethodToString
                     (little_endian (take 2 (drop 8 d)))])%list
    else cout.
Proof.
  intros Hopen.
  destruct (decide (take 4 d = magic)) as [Hm|Hm].
  - rewrite (isValidZipFile_magic_ok seek_past_end fs filePath d cout Hopen Hm).
    pose proof (readLocalFileHeader_cout d header_uninitialised cout) as Hc.
    destruct (readLocalFileHeader _) as [errorCode r]. cbn [snd] in Hc.
    assert ((let header := rd_header r in
             if decide (errorCode <> OK)
             then (errorCode, errorCodeToString errorCode, rd_cout r)
             else
               let advance :=
                 uint32 (fileNameLength header + extraFieldLength header
                         + compressedSize header) in
               let file := seekg seek_past_end advance cur (rd_file r) in
               if failbit file
               then (ERR_READ_FAIL, "failed to seek in file", rd_cout r)
               else (OK, "the file is a valid ZIP file", rd_cout r)).2
            = rd_cout r) as ->.
    { cbv zeta. destruct (decide _); [reflexivity|].
      destruct (failbit _); reflexivity. }
    rewrite Hc.
    destruct (Nat.leb_spec 10 (length d)); case_decide; try reflexivity;
      exfalso; intuition lia.
  - destruct (Nat.le_gt_cases 4 (length d)).
    + rewrite (isValidZipFile_bad_magic seek_past_end fs filePath d cout)
        by assumption.
      case_decide; [exfalso; intuition | reflexivity].
    + rewrite (isValidZipFile_too_short seek_past_end fs filePath d cout)
        by assumption.
      case_decide; [exfalso; intuition | reflexivity].
Qed.

(** X8.  [isValidZipFile] writes at most one line: the label of the
    compression method, decoded from the bytes at offsets 8 and 9, and
    only for a file that starts with the magic number and has at least
    ten bytes, whether or not the rest of the header is there.  For any
    other file, and for one that does not open, it writes nothing. *)
Theorem isValidZipFile_output (seek_past_end : bool) (fs : filesystem)
    (filePath : string) (cout : list string) :
  (isValidZipFile seek_past_end fs filePath cout).2
  = match fs filePath with
    | Some d =>
        if decide (take 4 d = magic /\ (10 <= length d)%nat)
        then (cout ++ [compressionMethodToString
                         (little_endian (take 2 (drop 8 d)))])%list
        else cout
    | None => cout
    end.
Proof.
  destruct (fs filePath) as [d|] eqn:Hopen.
  - apply isValidZipFile_cout, Hopen.
  - rewrite isValidZipFile_not_opened by assumption. reflexivity.
Qed.

(** ** The validator *)

Lemma outcome_of_in seek_past_end len first4 advance :
  outcome_of seek_past_end len first4 advance ∈ outcomes.
Proof.
  apply list_elem_of_In. unfold outcome_of.
  destruct (len <? 4)%nat; [simpl; tauto|].
  destruct (decide (first4 = magic)) as [Hm|Hm]; [|simpl; tauto].
  destruct (runs_out_at header_layout len) as [e|] eqn:He.
  - apply runs_out_at_read_error, list_elem_of_In in He.
    simpl in He. simpl.
    repeat (destruct He as [<- | He]; [tauto|]). destruct He.
  - destruct (_ || _); simpl; tauto.
Qed.

Lemma isValidZipFile_in seek_past_end fs filePath cout :
  (isValidZipFile seek_past_end fs filePath cout).1 ∈ outcomes.
Proof.
  destruct (fs filePath) as [d|] eqn:Hopen.
  - rewrite (isValidZipFile_outcome seek_past_end fs filePath d cout Hopen).
    apply outcome_of_in.
  - rewrite isValidZipFile_not_opened by assumption.
    apply list_elem_of_In. simpl. tauto.
Qed.

(** X9.  [isValidZipFile] returns one of sixteen pairs of code and
    message and nothing else; in particular it never returns
    [ERR_ARGUMENTS], [ERR_HEADER_READ] or [ERR_HEADER_SIGNATURE]. *)
Theorem isValidZipFile_outcomes (seek_past_end : bool) (fs : filesystem)
    (filePath : string) (cout : list string) :
  (isValidZipFile seek_past_end fs filePath cout).1 ∈ outcomes
  /\ (isValidZipFile seek_past_end fs filePath cout).1.1 <> ERR_ARGUMENTS
  /\ (isValidZipFile seek_past_end fs filePath cout).1.1 <> ERR_HEADER_READ
  /\ (isValidZipFile seek_past_end fs filePath cout).1.1
     <> ERR_HEADER_SIGNATURE.
Proof.
  pose proof (isValidZipFile_in seek_past_end fs filePath cout) as Hin.
  split; [exact Hin|].
  apply list_elem_of_In in Hin. simpl in Hin.
  repeat (destruct Hin as [<- | Hin]; [repeat split; discriminate|]).
  destruct Hin.
Qed.

(** X10.  The message tells the code: two calls of [isValidZipFile] that
    return the same message return the same code.  (The converse fails
    only for [ERR_READ_FAIL], which comes with one message from the first
    read and with another from the seek.) *)
Theorem message_identifies_code (seek1 seek2 : bool) (fs1 fs2 : filesystem)
    (path1 path2 : string) (cout1 cout2 : list string) :
  (isValidZipFile seek1 fs1 path1 cout1).1.2
  = (isValidZipFile seek2 fs2 path2 cout2).1.2 ->
  (isValidZipFile seek1 fs1 path1 cout1).1.1
  = (isValidZipFile seek2 fs2 path2 cout2).1.1.
Proof.
  pose proof (isValidZipFile_in seek1 fs1 path1 cout1) as H1.
  pose proof (isValidZipFile_in seek2 fs2 path2 cout2) as H2.
  apply list_elem_of_In in H1, H2. simpl in H1, H2.
  repeat (destruct H1 as [<- | H1];
          [ repeat (destruct H2 as [<- | H2];
                    [ first [reflexivity | intros H; discriminate H] |]);
            destruct H2 |]).
  destruct H1.
Qed.

Lemma message_identifies_code_witness :
  (isValidZipFile false (only_file minimal_header) "a.zip" []).1.1
  = (isValidZipFile true (only_file wrapping_header) "b.zip" ["x"]).1.1.
Proof.
  apply (message_identifies_code false true (only_file minimal_header)
           (only_file wrapping_header) "a.zip" "b.zip" [] ["x"]).
  vm_compute. reflexivity.
Defined.

Lemma outcome_of_OK_iff seek_past_end len first4 advance :
  (outcome_of seek_past_end len first4 advance).1 = OK
  <-> first4 = magic /\ (30 <= len)%nat
      /\ (seek_past_end = true \/ 30 + advance <= Z.of_nat len).
Proof.
  unfold outcome_of.
  destruct (Nat.ltb_spec len 4).
  { split; [discriminate | lia]. }
  destruct (decide (first4 = magic)) as [Hm|Hm].
  2: { split; [discriminate | tauto]. }
  destruct (runs_out_at header_layout len) as [e|] eqn:He.
  - pose proof (proj1 (runs_out_at_None len)).
    assert (~ (30 <= len)%nat).
    { intros Hlen. apply runs_out_at_None in Hlen. congruence. }
    apply runs_out_at_read_error, read_error_not_OK in He as (? & _).
    split; [intros; contradiction | tauto].
  - apply runs_out_at_None in He.
    destruct seek_past_end; cbn [orb].
    + split; [tauto | reflexivity].
    + destruct (Z.leb_spec (30 + advance) (Z.of_nat len)).
      * split; [tauto | reflexivity].
      * split; [discriminate | intros (_ & _ & [?|?]); [discriminate | lia]].
Qed.

(** X11.  A file that opens is accepted exactly when its first four bytes
    are [50 4B 03 04], it has at least thirty bytes and, unless the
    stream lets the position go past the end, the thirty bytes plus the
    32-bit sum of the three declared lengths do not exceed its length;
    the message is then [the file is a valid ZIP file].  In particular no
    file of fewer than thirty bytes is accepted. *)
Theorem isValidZipFile_accepts_iff (seek_past_end : bool) (fs : filesystem)
    (filePath : string) (d : list byte) (cout : list string) :
  fs filePath = Some d ->
  ((isValidZipFile seek_past_end fs filePath cout).1.1 = OK
   <-> take 4 d = magic /\ (30 <= length d)%nat
       /\ (seek_past_end = true
           \/ 30 + advance_of (decoded d) <= Z.of_nat (length d)))
  /\ ((isValidZipFile seek_past_end fs filePath cout).1.1 = OK ->
      (isValidZipFile seek_past_end fs filePath cout).1.2
      = "the file is a valid ZIP file").
Proof.
  intros Hopen. split.
  - rewrite (isValidZipFile_outcome seek_past_end fs filePath d cout Hopen).
    apply outcome_of_OK_iff.
  - pose proof (isValidZipFile_in seek_past_end fs filePath cout) as Hin.
    apply list_elem_of_In in Hin. simpl in Hin.
    repeat (destruct Hin as [<- | Hin];
            [first [reflexivity | intros H; discriminate H]|]).
    destruct Hin.
Qed.

Lemma isValidZipFile_accepts_iff_witness :
  ((isValidZipFile false (only_file minimal_header) "a.zip" []).1.1 = OK
   <-> take 4 minimal_header = magic /\ (30 <= length minimal_header)%nat
       /\ (false = true
           \/ 30 + advance_of (decoded minimal_header)
              <= Z.of_nat (length minimal_header)))
  /\ ((isValidZipFile false (only_file minimal_header) "a.zip" []).1.1 = OK ->
      (isValidZipFile false (only_file minimal_header) "a.zip" []).1.2
      = "the file is a valid ZIP file").
Proof.
  apply (isValidZipFile_accepts_iff false (only_file minimal_header) "a.zip"
           minimal_header []).
  reflexivity.
Defined.

Lemma decoded_app (d extra : list byte) :
  (30 <= length d)%nat -> decoded (d ++ extra) = decoded d.
Proof.
  intros Hlen.
  assert (forall p n, (p + n <= 30)%nat ->
            take n (drop p (d ++ extra)) = take n (drop p d)) as Hs.
  { intros p n Hpn. apply slice_ext. intros i Hi.
    apply lookup_app_l. lia. }
  unfold decoded.
  rewrite (Hs 0%nat 4%nat), (Hs 4%nat 2%nat), (Hs 6%nat 2%nat),
    (Hs 8%nat 2%nat), (Hs 10%nat 2%nat), (Hs 12%nat 2%nat),
    (Hs 14%nat 4%nat), (Hs 18%nat 4%nat), (Hs 22%nat 4%nat),
    (Hs 26%nat 2%nat), (Hs 28%nat 2%nat) by lia.
  reflexivity.
Qed.

(** X12.  Bytes added at the end of an accepted file leave it accepted. *)
Theorem accepted_file_stays_accepted_when_extended (seek_past_end : bool)
    (fs1 fs2 : filesystem) (path1 path2 : string) (d extra : list byte)
    (cout1 cout2 : list string) :
  fs1 path1 = Some d ->
  fs2 path2 = Some (d ++ extra)%list ->
  (isValidZipFile seek_past_end fs1 path1 cout1).1.1 = OK ->
  (isValidZipFile seek_past_end fs2 path2 cout2).1.1 = OK.
Proof.
  intros H1 H2.
  rewrite (isValidZipFile_outcome seek_past_end fs1 path1 d cout1 H1).
  rewrite (isValidZipFile_outcome seek_past_end fs2 path2 _ cout2 H2).
  rewrite !outcome_of_OK_iff. intros (Hm & Hlen & Hseek).
  rewrite decoded_app by assumption.
  rewrite take_app_le by lia. rewrite length_app.
  split; [assumption|]. split; [lia|].
  destruct Hseek as [?|?]; [left; assumption | right; lia].
Qed.

Lemma accepted_file_stays_accepted_when_extended_witness :
  (isValidZipFile false (only_file (minimal_header ++ [xff; xff])%list)
     "b.zip" []).1.1 = OK.
Proof.
  apply (accepted_file_stays_accepted_when_extended false
           (only_file minimal_header)
           (only_file (minimal_header ++ [xff; xff])%list)
           "a.zip" "b.zip" minimal_header [xff; xff] [] []).
  - reflexivity.
  - reflexivity.
  - vm_compute. reflexivity.
Defined.

Lemma isValidZipFile_frame seek_past_end fs filePath cout :
  isValidZipFile seek_past_end fs filePath cout
  = ((isValidZipFile seek_past_end fs filePath []).1,
     (cout ++ (isValidZipFile seek_past_end fs filePath []).2)%list).
Proof.
  destruct (fs filePath) as [d|] eqn:Hopen.
  - rewrite (surjective_pairing (isValidZipFile seek_past_end fs filePath cout)).
    rewrite !(isValidZipFile_outcome seek_past_end fs filePath d _ Hopen).
    rewrite !(isValidZipFile_cout seek_past_end fs filePath d _ Hopen).
    case_decide; [reflexivity | rewrite app_nil_r; reflexivity].
  - rewrite !isValidZipFile_not_opened by assumption.
    cbn [fst snd]. rewrite app_nil_r. reflexivity.
Qed.

(** X13.  What was written to the output before the call has no part in
    the answer of [isValidZipFile], and the call keeps it, adding its own
    lines after it. *)
Theorem isValidZipFile_appends (seek_past_end : bool) (fs : filesystem)
    (filePath : string) (cout1 cout2 : list string) :
  (isValidZipFile seek_past_end fs filePath cout1).1
  = (isValidZipFile seek_past_end fs filePath cout2).1
  /\ (isValidZipFile seek_past_end fs filePath cout1).2
     = (cout1 ++ (isValidZipFile seek_past_end fs filePath []).2)%list.
Proof.
  rewrite (isValidZipFile_frame seek_past_end fs filePath cout1).
  rewrite (isValidZipFile_frame seek_past_end fs filePath cout2).
  split; reflexivity.
Qed.

(** ** The program *)

Lemma ErrorCode_value_zero (e : ErrorCode) : ErrorCode_value e = 0 <-> e = OK.
Proof.
  split.
  - destruct e; first [reflexivity | intros H; vm_compute in H; discriminate H].
  - intros ->. reflexivity.
Qed.

(** The run of [main] that has a path to check. *)
Lemma main_with_path seek_past_end fs argv path p :
  argv !! 1%nat = Some path ->
  main seek_past_end fs argv p
  = let answer := isValidZipFile seek_past_end fs path [] in
    (ErrorCode_value answer.1.1,
     {| crc32Table := generateCrc32Table (crc32Table p);
        std_cout :=
          (std_cout p ++ [("procesing " ++ path)%string] ++ answer.2
           ++ [(answer.1.2 ++ " " ++ decimal (ErrorCode_value answer.1.1))%string])%list;
        std_cerr := std_cerr p |}).
Proof.
  intros Hpath. unfold main. rewrite Hpath.
  change (default "" (Some path)) with path.
  assert (2 <= length argv)%nat as Hargc.
  { apply lookup_lt_Some in Hpath. lia. }
  destruct (Z.ltb_spec (Z.of_nat (length argv)) 2); [lia|].
  cbv zeta. rewrite isValidZipFile_frame.
  destruct (isValidZipFile seek_past_end fs path []) as [[result reason] lines].
  cbn [fst snd]. rewrite <- !app_assoc. reflexivity.
Qed.

(** X14.  Given a path, [main] builds the CRC table, leaves the error
    stream alone, and adds to the output the line [procesing] with the
    path, the lines of [isValidZipFile], and a last line made of the
    message, a space and the exit status in decimal; the exit status is
    the value of the returned code.  The program name and any argument
    after the path play no part. *)
Theorem main_output (seek_past_end : bool) (fs : filesystem)
    (argv : list string) (path : string) (p : Process) :
  argv !! 1%nat = Some path ->
  let answer := isValidZipFile seek_past_end fs path [] in
  main seek_past_end fs argv p
  = (ErrorCode_value answer.1.1,
     {| crc32Table := generateCrc32Table (crc32Table p);
        std_cout :=
          (std_cout p ++ [("procesing " ++ path)%string] ++ answer.2
           ++ [(answer.1.2 ++ " " ++ decimal (ErrorCode_value answer.1.1))%string])%list;
        std_cerr := std_cerr p |})
  /\ main seek_past_end fs argv p = main seek_past_end fs [""; path] p.
Proof.
  intros Hpath. cbv zeta. split.
  - apply main_with_path, Hpath.
  - rewrite (main_with_path _ _ argv path) by assumption.
    rewrite (main_with_path _ _ [""; path] path) by reflexivity.
    reflexivity.
Qed.

Lemma main_output_witness :
  main false (only_file minimal_header) ["zipCheck"; "a.zip"; "more"]
    Process_start
  = (0,
     {| crc32Table := generateCrc32Table crc32Table_init;
        std_cout := ["procesing a.zip"; "no compression";
                     "the file is a valid ZIP file 0"];
        std_cerr := [] |}).
Proof.
  apply (main_output false (only_file minimal_header)
           ["zipCheck"; "a.zip"; "more"] "a.zip" Process_start).
  reflexivity.
Defined.

(** X15.  [main] exits with status 0 exactly when it is given a path, the
    file opens and [isValidZipFile] accepts it: four magic bytes, at
    least thirty bytes and, unless the stream lets the position go past
    the end, the declared bytes within the file. *)
Theorem main_exit_zero_iff (seek_past_end : bool) (fs : filesystem)
    (argv : list string) (p : Process) :
  (main seek_past_end fs argv p).1 = 0
  <-> exists path d,
        argv !! 1%nat = Some path
        /\ fs path = Some d
        /\ take 4 d = magic
        /\ (30 <= length d)%nat
        /\ (seek_past_end = true
            \/ 30 + advance_of (decoded d) <= Z.of_nat (length d)).
Proof.
  destruct (argv !! 1%nat) as [path|] eqn:Hpath.
  - rewrite (main_with_path seek_past_end fs argv path p Hpath).
    cbn [fst]. rewrite ErrorCode_value_zero.
    destruct (fs path) as [d|] eqn:Hopen.
    + rewrite (isValidZipFile_outcome seek_past_end fs path d [] Hopen).
      rewrite outcome_of_OK_iff. split.
      * intros H. exists path, d. tauto.
      * intros (path' & d' & [= <-] & Hd & H).
        rewrite Hopen in Hd. injection Hd as <-. exact H.
    + rewrite isValidZipFile_not_opened by assumption. cbn [fst]. split.
      * discriminate.
      * intros (path' & d' & [= <-] & Hd & _). congruence.
  - apply lookup_ge_None in Hpath. unfold main.
    destruct (Z.ltb_spec (Z.of_nat (length argv)) 2); [|lia].
    cbn [fst]. split.
    + intros Hone. vm_compute in Hone. discriminate Hone.
    + intros (path & d & Hp & _). discriminate Hp.
Qed.

(** X16.  The name [errorCodeToString] gives, the integer value and the
    decimal numeral [main] prints each identify the error code: no two
    codes share one. *)
Theorem error_codes_are_told_apart (e1 e2 : ErrorCode) :
  (errorCodeToString e1 = errorCodeToString e2 -> e1 = e2)
  /\ (ErrorCode_value e1 = ErrorCode_value e2 -> e1 = e2)
  /\ (decimal (ErrorCode_value e1) = decimal (ErrorCode_value e2) -> e1 = e2).
Proof.
  repeat split; destruct e1, e2;
    first [reflexivity | intros H; vm_compute in H; discriminate H].
Qed.

(** ** The CRC-32 engine *)

Lemma lxor_bound (a b n : Z) :
  0 <= a < 2 ^ n -> 0 <= b < 2 ^ n -> 0 <= Z.lxor a b < 2 ^ n.
Proof.
  intros Ha Hb.
  assert (0 <= Z.lxor a b) as Hnn by (apply Z.lxor_nonneg; lia).
  split; [exact Hnn|].
  destruct (Z.eq_dec (Z.lxor a b) 0) as [->|Hne]; [lia|].
  destruct (Z.le_gt_cases n 0) as [Hn|Hn].
  { assert (2 ^ n <= 1) by (destruct (Z.eq_dec n 0) as [->|?];
      [simpl; lia | rewrite Z.pow_neg_r by lia; lia]).
    assert (a = 0) by lia. assert (b = 0) by lia. subst. contradiction. }
  apply Z.log2_lt_pow2; [lia|].
  pose proof (Z.log2_lxor a b ltac:(lia) ltac:(lia)) as Hlog.
  assert (Z.log2 a < n) as Hla.
  { destruct (Z.eq_dec a 0) as [->|?]; [simpl; lia|].
    apply Z.log2_lt_pow2; lia. }
  assert (Z.log2 b < n) as Hlb.
  { destruct (Z.eq_dec b 0) as [->|?]; [simpl; lia|].
    apply Z.log2_lt_pow2; lia. }
  lia.
Qed.

Lemma land_1_cases (x : Z) : Z.land x 1 = 0 \/ Z.land x 1 = 1.
Proof.
  change 1 with (Z.ones 1). rewrite Z.land_ones by lia.
  change (2 ^ 1) with 2. change (Z.ones 1) with 1.
  pose proof (Z.mod_pos_bound x 2 ltac:(lia)). lia.
Qed.

Ltac lxor_bits :=
  apply Z.bits_inj'; intros ? ?;
  rewrite ?Z.lxor_spec, ?Z.land_spec, ?Z.lxor_spec, ?Z.bits_0;
  repeat match goal with
         | |- context [Z.testbit ?v ?n] => destruct (Z.testbit v n)
         end; reflexivity.

(** One shift of the register is linear over exclusive or. *)
Lemma crc_shift_lxor (polynomial x y : Z) :
  crc_shift polynomial (Z.lxor x y)
  = Z.lxor (crc_shift polynomial x) (crc_shift polynomial y).
Proof.
  unfold crc_shift.
  assert (Z.land (Z.lxor x y) 1 = Z.lxor (Z.land x 1) (Z.land y 1)) as ->
    by lxor_bits.
  rewrite Z.shiftr_lxor.
  destruct (land_1_cases x) as [-> | ->], (land_1_cases y) as [-> | ->];
    repeat match goal with
           | |- context [negb (?a =? ?b)] =>
               let v := eval vm_compute in (negb (a =? b)) in
               change (negb (a =? b)) with v
           end;
    cbv iota; lxor_bits.
Qed.

Lemma crc_inner_lxor (j : nat) (polynomial x y : Z) :
  crc_inner j polynomial (Z.lxor x y)
  = Z.lxor (crc_inner j polynomial x) (crc_inner j polynomial y).
Proof.
  revert x y. induction j as [|j IH]; intros x y; simpl; [reflexivity|].
  rewrite crc_shift_lxor. apply IH.
Qed.

(** Bits above the low [j] come down unchanged. *)
Lemma crc_inner_shiftl (j : nat) (polynomial h : Z) :
  crc_inner j polynomial (Z.shiftl h (Z.of_nat j)) = h.
Proof.
  induction j as [|j IH]; simpl crc_inner.
  - apply Z.shiftl_0_r.
  - assert (crc_shift polynomial (Z.shiftl h (Z.of_nat (S j)))
            = Z.shiftl h (Z.of_nat j)) as ->; [|exact IH].
    unfold crc_shift.
    assert (Z.land (Z.shiftl h (Z.of_nat (S j))) 1 = 0) as ->.
    { change 1 with (Z.ones 1). rewrite Z.land_ones by lia.
      rewrite Z.shiftl_mul_pow2 by lia.
      replace (Z.of_nat (S j)) with (Z.of_nat j + 1) by lia.
      rewrite Z.pow_add_r by lia. rewrite Z.mul_assoc.
      apply Z.mod_mul. lia. }
    cbn [Z.eqb negb].
    rewrite Z.shiftr_shiftl_l by lia. f_equal. lia.
Qed.

Lemma split_low_byte (c : Z) :
  c = Z.lxor (Z.shiftl (Z.shiftr c 8) 8) (Z.land c 255).
Proof.
  apply Z.bits_inj'. intros n Hn.
  rewrite Z.lxor_spec. change 255 with (Z.ones 8).
  rewrite Z.land_ones by lia.
  destruct (Z.lt_ge_cases n 8).
  - rewrite Z.shiftl_spec_low by lia.
    rewrite Z.mod_pow2_bits_low by lia. reflexivity.
  - rewrite Z.shiftl_spec_high by lia.
    rewrite Z.shiftr_spec by lia.
    rewrite Z.mod_pow2_bits_high by lia.
    rewrite xorb_false_r. f_equal. lia.
Qed.

Lemma tableIndex_range (c : Z) (b : byte) :
  0 <= Z.lxor (Z.land c 0xff) (byte_val b) < 2 ^ 8.
Proof.
  apply lxor_bound.
  - change 0xff with (Z.ones 8). rewrite Z.land_ones by lia.
    apply Z.mod_pos_bound. lia.
  - pose proof (byte_val_range b). lia.
Qed.

Lemma crc_update_bitwise (t : list Z) (c : Z) (b : byte) :
  length t = 256%nat ->
  crc_update (generateCrc32Table t) c b
  = crc_inner 8 0xedb88320 (Z.lxor c (byte_val b)).
Proof.
  intros Hlen. rewrite generateCrc32Table_fills by assumption.
  unfold crc_update, uint8.
  pose proof (tableIndex_range c b) as Hidx.
  rewrite Z.mod_small by exact Hidx.
  set (idx := Z.lxor (Z.land c 0xff) (byte_val b)) in *.
  rewrite list_lookup_fmap, lookup_seq_lt by lia.
  cbn [fmap option_fmap option_map default]. unfold crc_entry.
  replace (Z.of_nat (0 + Z.to_nat idx)) with idx by lia.
  rewrite (split_low_byte c) at 2.
  rewrite Z.lxor_assoc. fold idx.
  rewrite crc_inner_lxor.
  rewrite (crc_inner_shiftl 8 _ (Z.shiftr c 8)).
  apply Z.lxor_comm.
Qed.

(** X17.  Driven by the table that [generateCrc32Table] builds, one step
    of [computeCrc32] does what eight shifts of the register do after the
    byte has been folded into it, so the checksum is the remainder that
    the shift register computes bit by bit. *)
Theorem computeCrc32_is_bitwise (t : list Z) (data : list byte) :
  length t = 256%nat ->
  (forall c b,
      crc_update (generateCrc32Table t) c b
      = crc_inner 8 0xedb88320 (Z.lxor c (byte_val b)))
  /\ computeCrc32 (generateCrc32Table t) data
     = uint32 (Z.lnot
         (foldl (fun c b => crc_inner 8 0xedb88320 (Z.lxor c (byte_val b)))
                0xffffffff data)).
Proof.
  intros Hlen. split.
  - intros c b. apply crc_update_bitwise, Hlen.
  - unfold computeCrc32. do 2 f_equal.
    generalize 0xffffffff.
    induction data as [|b data IH]; intros c; simpl; [reflexivity|].
    rewrite crc_update_bitwise by assumption. apply IH.
Qed.

Lemma computeCrc32_is_bitwise_witness :
  computeCrc32 (generateCrc32Table crc32Table_init) check_text
  = uint32 (Z.lnot
      (foldl (fun c b => crc_inner 8 0xedb88320 (Z.lxor c (byte_val b)))
             0xffffffff check_text)).
Proof.
  apply (computeCrc32_is_bitwise crc32Table_init check_text).
  reflexivity.
Defined.

Lemma crc_shift_range (x : Z) :
  0 <= x < 2 ^ 32 -> 0 <= crc_shift 0xedb88320 x < 2 ^ 32.
Proof.
  intros Hx. unfold crc_shift.
  assert (0 <= Z.shiftr x 1 < 2 ^ 31) as Hs.
  { rewrite Z.shiftr_div_pow2 by lia. change (2 ^ 1) with 2.
    split; [apply Z.div_pos; lia|].
    apply Z.div_lt_upper_bound; lia. }
  destruct (negb _); [apply lxor_bound|]; lia.
Qed.

Lemma crc_inner_range (j : nat) (x : Z) :
  0 <= x < 2 ^ 32 -> 0 <= crc_inner j 0xedb88320 x < 2 ^ 32.
Proof.
  revert x. induction j as [|j IH]; intros x Hx; simpl; [exact Hx|].
  apply IH, crc_shift_range, Hx.
Qed.

(** The register stays a 32-bit value through a step. *)
Lemma crc_update_range (t : list Z) (c : Z) (b : byte) :
  length t = 256%nat -> 0 <= c < 2 ^ 32 ->
  0 <= crc_update (generateCrc32Table t) c b < 2 ^ 32.
Proof.
  intros Hlen Hc. rewrite crc_update_bitwise by assumption.
  apply crc_inner_range, lxor_bound; [exact Hc|].
  pose proof (byte_val_range b). lia.
Qed.

Lemma register_range (t : list Z) (data : list byte) (c : Z) :
  length t = 256%nat -> 0 <= c < 2 ^ 32 ->
  0 <= foldl (crc_update (generateCrc32Table t)) c data < 2 ^ 32.
Proof.
  intros Hlen. revert c.
  induction data as [|b data IH]; intros c Hc; simpl; [exact Hc|].
  apply IH, crc_update_range; assumption.
Qed.

Lemma computeCrc32_complement (t : list Z) (data : list byte) :
  length t = 256%nat ->
  computeCrc32 (generateCrc32Table t) data
  = 0xffffffff - foldl (crc_update (generateCrc32Table t)) 0xffffffff data.
Proof.
  intros Hlen. unfold computeCrc32, uint32.
  pose proof (register_range t data 0xffffffff Hlen ltac:(lia)) as Hr.
  unfold Z.lnot.
  set (r := foldl _ _ _) in *.
  replace (Z.pred (- r)) with ((0xffffffff - r) + (-1) * 2 ^ 32) by lia.
  rewrite Z.mod_add by lia. apply Z.mod_small. lia.
Qed.

(** X18.  With the generated table the running register never leaves the
    32-bit range, so no step of [computeCrc32] depends on how a wider
    value would be cut down, and the checksum is the register's
    complement, [0xffffffff] minus the register. *)
Theorem computeCrc32_register_stays_32_bit (t : list Z) (data : list byte) :
  length t = 256%nat ->
  let register := foldl (crc_update (generateCrc32Table t)) 0xffffffff data in
  0 <= register < 2 ^ 32
  /\ computeCrc32 (generateCrc32Table t) data = 0xffffffff - register
  /\ 0 <= computeCrc32 (generateCrc32Table t) data < 2 ^ 32.
Proof.
  intros Hlen. cbv zeta.
  pose proof (register_range t data 0xffffffff Hlen ltac:(lia)) as Hr.
  rewrite computeCrc32_complement by assumption.
  repeat split; lia.
Qed.

Lemma computeCrc32_register_stays_32_bit_witness :
  computeCrc32 (generateCrc32Table crc32Table_init) check_text
  = 0xffffffff
    - foldl (crc_update (generateCrc32Table crc32Table_init)) 0xffffffff
        check_text.
Proof.
  apply (computeCrc32_register_stays_32_bit crc32Table_init check_text).
  reflexivity.
Defined.

(** Only the zero register shifts to zero. *)
Lemma crc_shift_zero (z : Z) :
  0 <= z < 2 ^ 32 -> crc_shift 0xedb88320 z = 0 -> z = 0.
Proof.
  intros Hz. unfold crc_shift.
  assert (0 <= Z.shiftr z 1 < 2 ^ 31) as Hs.
  { rewrite Z.shiftr_div_pow2 by lia. change (2 ^ 1) with 2.
    split; [apply Z.div_pos; lia|].
    apply Z.div_lt_upper_bound; lia. }
  destruct (Z.eqb_spec (Z.land z 1) 0) as [Hbit|Hbit]; cbn [negb].
  - intros Hshift.
    change 1 with (Z.ones 1) in Hbit. rewrite Z.land_ones in Hbit by lia.
    rewrite Z.shiftr_div_pow2 in Hshift by lia.
    change (2 ^ 1) with 2 in *.
    pose proof (Z.div_mod z 2 ltac:(lia)). lia.
  - intros Hxor. apply Z.lxor_eq in Hxor. lia.
Qed.

Lemma crc_shift_inj (x y : Z) :
  0 <= x < 2 ^ 32 -> 0 <= y < 2 ^ 32 ->
  crc_shift 0xedb88320 x = crc_shift 0xedb88320 y -> x = y.
Proof.
  intros Hx Hy Heq. apply Z.lxor_eq.
  apply crc_shift_zero; [apply lxor_bound; assumption|].
  rewrite crc_shift_lxor, Heq. apply Z.lxor_nilpotent.
Qed.

Lemma crc_inner_inj (j : nat) (x y : Z) :
  0 <= x < 2 ^ 32 -> 0 <= y < 2 ^ 32 ->
  crc_inner j 0xedb88320 x = crc_inner j 0xedb88320 y -> x = y.
Proof.
  revert x y. induction j as [|j IH]; intros x y Hx Hy; simpl; [auto|].
  intros Heq. apply crc_shift_inj; [assumption..|].
  apply IH; [apply crc_shift_range; assumption..|exact Heq].
Qed.

Lemma lxor_cancel_r (a b c : Z) : Z.lxor a c = Z.lxor b c -> a = b.
Proof.
  intros H. apply (f_equal (fun v => Z.lxor v c)) in H.
  rewrite !Z.lxor_assoc, Z.lxor_nilpotent, !Z.lxor_0_r in H. exact H.
Qed.

(** A step is one-to-one in the register ... *)
Lemma crc_update_inj_register (t : list Z) (c1 c2 : Z) (b : byte) :
  length t = 256%nat -> 0 <= c1 < 2 ^ 32 -> 0 <= c2 < 2 ^ 32 ->
  crc_update (generateCrc32Table t) c1 b
  = crc_update (generateCrc32Table t) c2 b ->
  c1 = c2.
Proof.
  intros Hlen H1 H2. rewrite !crc_update_bitwise by assumption.
  pose proof (byte_val_range b).
  intros Heq%crc_inner_inj; [|apply lxor_bound; lia..].
  exact (lxor_cancel_r _ _ _ Heq).
Qed.

(** ... and in the byte. *)
Lemma crc_update_inj_byte (t : list Z) (c : Z) (b1 b2 : byte) :
  length t = 256%nat -> 0 <= c < 2 ^ 32 ->
  crc_update (generateCrc32Table t) c b1
  = crc_update (generateCrc32Table t) c b2 ->
  b1 = b2.
Proof.
  intros Hlen Hc. rewrite !crc_update_bitwise by assumption.
  pose proof (byte_val_range b1). pose proof (byte_val_range b2).
  intros Heq%crc_inner_inj; [|apply lxor_bound; lia..].
  apply byte_val_inj.
  rewrite (Z.lxor_comm c), (Z.lxor_comm c) in Heq.
  exact (lxor_cancel_r _ _ _ Heq).
Qed.

Lemma register_inj (t : list Z) (data : list byte) (c1 c2 : Z) :
  length t = 256%nat -> 0 <= c1 < 2 ^ 32 -> 0 <= c2 < 2 ^ 32 ->
  foldl (crc_update (generateCrc32Table t)) c1 data
  = foldl (crc_update (generateCrc32Table t)) c2 data ->
  c1 = c2.
Proof.
  intros Hlen. revert c1 c2.
  induction data as [|b data IH]; intros c1 c2 H1 H2; simpl; [auto|].
  intros Heq%IH; [|apply crc_update_range; assumption..].
  exact (crc_update_inj_register t c1 c2 b Hlen H1 H2 Heq).
Qed.

(** X19.  The checksums of two byte sequences followed by the same bytes
    are equal exactly when the checksums of the two sequences are: a
    common tail neither hides a difference nor makes one. *)
Theorem computeCrc32_common_suffix (t : list Z) (d1 d2 tail : list byte) :
  length t = 256%nat ->
  computeCrc32 (generateCrc32Table t) (d1 ++ tail)
  = computeCrc32 (generateCrc32Table t) (d2 ++ tail)
  <-> computeCrc32 (generateCrc32Table t) d1
      = computeCrc32 (generateCrc32Table t) d2.
Proof.
  intros Hlen. rewrite !computeCrc32_complement by assumption.
  rewrite !foldl_app.
  pose proof (register_range t d1 0xffffffff Hlen ltac:(lia)) as H1.
  pose proof (register_range t d2 0xffffffff Hlen ltac:(lia)) as H2.
  split.
  - intros Heq.
    assert (foldl (crc_update (generateCrc32Table t))
              (foldl (crc_update (generateCrc32Table t)) 0xffffffff d1) tail
            = foldl (crc_update (generateCrc32Table t))
                (foldl (crc_update (generateCrc32Table t)) 0xffffffff d2) tail)
      as Hreg by lia.
    apply register_inj in Hreg; [lia | assumption..].
  - intros Heq.
    assert (foldl (crc_update (generateCrc32Table t)) 0xffffffff d1
            = foldl (crc_update (generateCrc32Table t)) 0xffffffff d2)
      as -> by lia.
    reflexivity.
Qed.

Lemma computeCrc32_common_suffix_witness :
  computeCrc32 (generateCrc32Table crc32Table_init) ([x31; x32] ++ [x33])
  = computeCrc32 (generateCrc32Table crc32Table_init) ([x41] ++ [x33])
  <-> computeCrc32 (generateCrc32Table crc32Table_init) [x31; x32]
      = computeCrc32 (generateCrc32Table crc32Table_init) [x41].
Proof.
  apply (computeCrc32_common_suffix crc32Table_init [x31; x32] [x41] [x33]).
  reflexivity.
Defined.

(** X20.  Replacing one byte of the data by a different byte, at any
    place, changes the checksum. *)
Theorem computeCrc32_detects_changed_byte (t : list Z)
    (before after : list byte) (b1 b2 : byte) :
  length t = 256%nat ->
  b1 <> b2 ->
  computeCrc32 (generateCrc32Table t) (before ++ b1 :: after)
  <> computeCrc32 (generateCrc32Table t) (before ++ b2 :: after).
Proof.
  intros Hlen Hne Heq. apply Hne.
  rewrite !computeCrc32_complement in Heq by assumption.
  rewrite !foldl_app in Heq. simpl in Heq.
  pose proof (register_range t before 0xffffffff Hlen ltac:(lia)) as Hb.
  set (c := foldl (crc_update (generateCrc32Table t)) 0xffffffff before) in *.
  assert (foldl (crc_update (generateCrc32Table t))
            (crc_update (generateCrc32Table t) c b1) after
          = foldl (crc_update (generateCrc32Table t))
              (crc_update (generateCrc32Table t) c b2) after) as Hreg by lia.
  apply register_inj in Hreg;
    [|assumption | apply crc_update_range; assumption..].
  exact (crc_update_inj_byte t c b1 b2 Hlen Hb Hreg).
Qed.

Lemma computeCrc32_detects_changed_byte_witness :
  x34 <> x24
  /\ computeCrc32 (generateCrc32Table crc32Table_init)
       ([x31; x32; x33] ++ x34 :: [x35])
     <> computeCrc32 (generateCrc32Table crc32Table_init)
          ([x31; x32; x33] ++ x24 :: [x35]).
Proof.
  split; [discriminate|].
  apply (computeCrc32_detects_changed_byte crc32Table_init
           [x31; x32; x33] [x35] x34 x24).
  - reflexivity.
  - discriminate.
Defined.

(** X21.  Whatever the 256 entries held before, [generateCrc32Table]
    leaves a table of 256 entries in which entry [i] is [i] shifted eight
    times through the register; every entry is a 32-bit value and no two
    entries are equal. *)
Theorem generateCrc32Table_invariants (t : list Z) :
  length t = 256%nat ->
  length (generateCrc32Table t) = 256%nat
  /\ (forall i, (i < 256)%nat ->
        generateCrc32Table t !! i
        = Some (crc_inner 8 0xedb88320 (Z.of_nat i)))
  /\ Forall (fun v => 0 <= v < 2 ^ 32) (generateCrc32Table t)
  /\ NoDup (generateCrc32Table t).
Proof.
  intros Hlen. rewrite generateCrc32Table_fills by assumption.
  split; [rewrite length_fmap, length_seq; reflexivity|].
  split.
  { intros i Hi. rewrite list_lookup_fmap, lookup_seq_lt by assumption.
    reflexivity. }
  split.
  - apply Forall_fmap, Forall_forall. intros i Hi%elem_of_seq.
    apply crc_inner_range. lia.
  - apply NoDup_fmap_2_strong; [|apply NoDup_seq].
    intros i j Hi%elem_of_seq Hj%elem_of_seq Heq.
    apply crc_inner_inj in Heq; lia.
Qed.

Lemma generateCrc32Table_invariants_witness :
  NoDup (generateCrc32Table crc32Table_init).
Proof.
  apply (generateCrc32Table_invariants crc32Table_init).
  reflexivity.
Defined.
